(** * Canonical event log (package cel) and the register chain of
    tpm2tools: a shallow embedding and its verified properties.

    The embedding follows [cel/canonical_eventlog.go] function by
    function.  Go's [bytes.Buffer] is a list of unread bytes threaded
    through a small state-and-error monad; a [map] is a [gmap] together
    with an explicit iteration order, since Go's [range] over a map
    visits the entries in an unspecified order.  The byte slices of
    [computePCRValue] are windows on backing arrays in an explicit
    memory, since [append] may write into the array of its first
    argument. *)

From Stdlib Require Import ZArith List Lia.
From Stdlib Require Import Strings.Byte.
From stdpp Require Import base list gmap sorting.
Import ListNotations.

Local Open Scope Z_scope.

(** ** Bytes and fixed-width integers *)

Abbreviation byte := Byte.byte.
Abbreviation bytes := (list Byte.byte).

#[global]
Instance byte_eq_decision : EqDecision byte := Byte.byte_eq_dec.

(** [byte(v)]: conversion of an unsigned integer to [uint8] keeps the low
    eight bits. *)
Definition byte_of_Z (v : Z) : byte :=
  match Byte.of_N (Z.to_N (Z.land v 255)) with
  | Some b => b
  | None => Byte.x00
  end.

(** [uint32(b)], [uint64(b)] of a byte [b]. *)
Definition Z_of_byte (b : byte) : Z := Z.of_N (Byte.to_N b).

(** [uint32(n)] and [uint64(n)] of a non-negative [int]: wrap-around. *)
Definition uint32 (n : Z) : Z := n mod 2 ^ 32.
Definition uint64 (n : Z) : Z := n mod 2 ^ 64.
Definition uint8 (n : Z) : byte := byte_of_Z n.

(** ** Outcomes of Go calls *)

(** The errors of the package, one constructor per [fmt.Errorf] site;
    [EOF] is [io.EOF]; [ErrExternal] stands for an error value handed
    back by a collaborator ([Content.GenerateDigest], package tpm2). *)
Inductive error : Type :=
| EOF
| ErrTLVLength
| ErrNoHashAlgo
| ErrRecnumFieldType (got : byte)
| ErrRecnumFieldLength (got : nat)
| ErrPCRFieldType (got : byte)
| ErrPCRFieldLength (got : nat)
| ErrDigestLength (got : nat) (want : Z)
| ErrNotDigests
| ErrBufferEnds
| ErrRecnumTLVType (got : byte)
| ErrPCRTLVType (got : byte)
| ErrDigestsTLVType (got : byte)
| ErrExternal (code : Z).

(** A call returns normally with a value, returns a non-nil error, or
    panics (index or slice bounds out of range, [crypto.Hash.Size] of an
    unknown hash). *)
Inductive result (A : Type) : Type :=
| Ok (a : A)
| Err (e : error)
| Panic.
Arguments Ok {A} a.
Arguments Err {A} e.
Arguments Panic {A}.

Definition is_Ok {A} (r : result A) : bool :=
  match r with Ok _ => true | _ => false end.

Definition rbind {A B} (r : result A) (k : A -> result B) : result B :=
  match r with
  | Ok a => k a
  | Err e => Err e
  | Panic => Panic
  end.

(** An index expression [s[i]]: panics out of range. *)
Definition index {A} (s : list A) (i : nat) : result A :=
  match s !! i with
  | Some a => Ok a
  | None => Panic
  end.

Declare Scope result_scope.
Delimit Scope result_scope with result.
Notation "x <- r ;; k" := (rbind r (fun x => k))
  (at level 100, r at next level, right associativity) : result_scope.

(** ** encoding/binary, big endian *)

(** [binary.BigEndian.PutUint32(b, v)]: the four bytes written. *)
Definition PutUint32 (v : Z) : bytes :=
  [byte_of_Z (Z.shiftr v 24); byte_of_Z (Z.shiftr v 16);
   byte_of_Z (Z.shiftr v 8); byte_of_Z v].

(** [binary.BigEndian.Uint32(b)]; its bounds check [_ = b[3]] panics on
    fewer than four bytes. *)
Definition Uint32 (b : bytes) : result Z :=
  (b3 <- index b 3;; b2 <- index b 2;; b1 <- index b 1;; b0 <- index b 0;;
   Ok (Z.lor (Z.lor (Z.lor (Z_of_byte b3) (Z.shiftl (Z_of_byte b2) 8))
                    (Z.shiftl (Z_of_byte b1) 16))
             (Z.shiftl (Z_of_byte b0) 24)))%result.

(** [binary.BigEndian.PutUint64(b, v)]: the eight bytes written. *)
Definition PutUint64 (v : Z) : bytes :=
  [byte_of_Z (Z.shiftr v 56); byte_of_Z (Z.shiftr v 48);
   byte_of_Z (Z.shiftr v 40); byte_of_Z (Z.shiftr v 32);
   byte_of_Z (Z.shiftr v 24); byte_of_Z (Z.shiftr v 16);
   byte_of_Z (Z.shiftr v 8); byte_of_Z v].

(** [binary.BigEndian.Uint64(b)]; panics on fewer than eight bytes. *)
Definition Uint64 (b : bytes) : result Z :=
  (b7 <- index b 7;; b6 <- index b 6;; b5 <- index b 5;; b4 <- index b 4;;
   b3 <- index b 3;; b2 <- index b 2;; b1 <- index b 1;; b0 <- index b 0;;
   Ok (Z.lor (Z.lor (Z.lor (Z.lor (Z.lor (Z.lor (Z.lor
        (Z_of_byte b7) (Z.shiftl (Z_of_byte b6) 8))
        (Z.shiftl (Z_of_byte b5) 16)) (Z.shiftl (Z_of_byte b4) 24))
        (Z.shiftl (Z_of_byte b3) 32)) (Z.shiftl (Z_of_byte b2) 40))
        (Z.shiftl (Z_of_byte b1) 48)) (Z.shiftl (Z_of_byte b0) 56)))%result.

(** ** Constants (CEL spec 5.1) *)

Definition recnumTypeValue : byte := Byte.x00.
Definition pcrTypeValue : byte := Byte.x01.
Definition digestsTypeValue : byte := Byte.x03.

Definition tlvTypeFieldLength : nat := 1.
Definition tlvLengthFieldLength : nat := 4.

Definition recnumValueLength : Z := 8.
Definition pcrValueLength : Z := 1.

(** ** TLV *)

Record TLV : Type := mkTLV { Type_ : byte; Value : bytes }.

(** A Go slice as slicing expressions see it: the [len] visible elements
    and the elements of the backing array between [len] and [cap]. *)
Record slice : Type := mkSlice { elems : bytes; spare : bytes }.

(** [s[lo:hi]] is in range when [lo <= hi <= cap(s)]. *)
Definition slice_lo_hi (s : slice) (lo hi : nat) : result bytes :=
  if decide (lo <= hi <= length (elems s) + length (spare s))%nat
  then Ok (drop lo (take hi (elems s ++ spare s)))
  else Panic.

(** [s[lo:]] is [s[lo:len(s)]], in range when [lo <= len(s)]. *)
Definition slice_lo (s : slice) (lo : nat) : result bytes :=
  if decide (lo <= length (elems s))%nat
  then Ok (drop lo (elems s))
  else Panic.

(** [MarshalBinary]: the buffer holds the type, the length of the value
    as a big-endian [uint32], and the value. *)
Definition MarshalBinary (tlv : TLV) : bytes :=
  Type_ tlv :: PutUint32 (uint32 (Z.of_nat (length (Value tlv)))) ++ Value tlv.

(** [UnmarshalBinary]. *)
Definition UnmarshalBinary (data : slice) : result TLV :=
  (lengthField <- slice_lo_hi data tlvTypeFieldLength
                    (tlvTypeFieldLength + tlvLengthFieldLength);;
   valueLength <- Uint32 lengthField;;
   value <- slice_lo data (tlvTypeFieldLength + tlvLengthFieldLength);;
   if decide (valueLength ≠ uint32 (Z.of_nat (length value)))
   then Err ErrTLVLength
   else
     type <- index (elems data) 0;;
     Ok (mkTLV type value))%result.

(** ** bytes.Buffer *)

(** The unread portion [b.buf[b.off:]] of a [bytes.Buffer]: reads take
    from the front, writes add at the end. *)
Abbreviation Buffer := (list Byte.byte) (only parsing).

(** Code over a [*bytes.Buffer]: the buffer is threaded through, and an
    error or a panic stops the rest while keeping what was consumed. *)
Definition M (A : Type) : Type := Buffer -> result A * Buffer.

Definition ret {A} (a : A) : M A := fun buf => (Ok a, buf).

Definition fail {A} (e : error) : M A := fun buf => (Err e, buf).

Definition lift {A} (r : result A) : M A := fun buf => (r, buf).

Definition bind {A B} (m : M A) (k : A -> M B) : M B :=
  fun buf =>
    match m buf with
    | (Ok a, buf') => k a buf'
    | (Err e, buf') => (Err e, buf')
    | (Panic, buf') => (Panic, buf')
    end.

Declare Scope buffer_scope.
Delimit Scope buffer_scope with buffer.
Notation "x <- m ;; k" := (bind m (fun x => k))
  (at level 100, m at next level, right associativity) : buffer_scope.

(** [buf.Len()]. *)
Definition Buffer_Len (buf : Buffer) : nat := length buf.

(** [buf.ReadByte()]: [io.EOF] on an empty buffer. *)
Definition Buffer_ReadByte : M byte :=
  fun buf =>
    match buf with
    | [] => (Err EOF, [])
    | c :: rest => (Ok c, rest)
    end.

(** [buf.Read(p)] with [len(p) = n]: on an empty buffer it returns
    [0, nil] when [n = 0] and [0, io.EOF] otherwise; else it copies
    [min n (buf.Len())] bytes and returns their count with a nil error.
    The value is the bytes copied into the front of [p], so [bytesRead]
    is its length. *)
Definition Buffer_Read (n : nat) : M bytes :=
  fun buf =>
    match buf with
    | [] => if decide (n = 0%nat) then (Ok [], []) else (Err EOF, [])
    | _ :: _ => (Ok (take n buf), drop n buf)
    end.

(** [buf.Write(p)]: grows the buffer, the error is always nil. *)
Definition Buffer_Write (p : bytes) : M unit :=
  fun buf => (Ok tt, buf ++ p).

(** [UnmarshalFirstTLV].  The value read is the bytes copied into
    [lengthBytes] and [valueBytes], used only when the slice was filled;
    [make] is taken to succeed.  [data] is built by [append] from nil
    and always has at least five elements when [UnmarshalBinary] is
    called, so what lies beyond its length in the backing array plays no
    role and the slice is passed without spare elements. *)
Definition UnmarshalFirstTLV : M TLV :=
  (typeByte <- Buffer_ReadByte;;
   let data := [typeByte] in
   lengthBytes <- Buffer_Read tlvLengthFieldLength;;
   if decide (length lengthBytes ≠ tlvLengthFieldLength)
   then fail EOF
   else
     valueLength <- lift (Uint32 lengthBytes);;
     let data := data ++ lengthBytes in
     valueBytes <- Buffer_Read (Z.to_nat valueLength);;
     if decide (uint32 (Z.of_nat (length valueBytes)) ≠ valueLength)
     then fail EOF
     else
       let data := data ++ valueBytes in
       lift (UnmarshalBinary (mkSlice data [])))%buffer.

(** ** Records and the log *)

Record Record_ : Type := mkRecord {
  RECNUM : TLV;
  PCR : TLV;
  Digests : TLV;
  Content_ : TLV
}.

Record CEL : Type := mkCEL { Records : list Record_ }.

(** [crypto.Hash] and [tpm2.Algorithm] are unsigned integers. *)
Abbreviation Hash := Z (only parsing).
Abbreviation Algorithm := Z (only parsing).

(** The interface [Content]. *)
Class Content (A : Type) : Type := {
  GenerateDigest : A -> Hash -> result bytes;
  GetTLV : A -> TLV
}.

(** What the package takes from outside the repository: the digest size
    of a [crypto.Hash] ([Size] panics on an unknown hash), and package
    tpm2's table between Go hashes and TPM algorithm identifiers. *)
Class HashLib : Type := {
  Hash_Size : Hash -> result Z;
  HashToAlgorithm : Hash -> result Algorithm;
  Algorithm_Hash : Algorithm -> result Hash
}.

(** The order in which one [range] statement visits a map: some
    enumeration of its entries, each exactly once. *)
Definition range_order : Type := gmap Z bytes -> list (Z * bytes).

Definition range_valid (range : range_order) : Prop :=
  forall m, range m ≡ₚ map_to_list m.

Definition createRecNumField (recNum : Z) : TLV :=
  mkTLV recnumTypeValue (PutUint64 recNum).

Definition UnmarshalRecNum (tlv : TLV) : result Z :=
  if decide (Type_ tlv ≠ recnumTypeValue)
  then Err (ErrRecnumFieldType (Type_ tlv))
  else if decide (uint32 (Z.of_nat (length (Value tlv))) ≠ recnumValueLength)
  then Err (ErrRecnumFieldLength (length (Value tlv)))
  else Uint64 (Value tlv).

Definition createPCRField (pcrNum : byte) : TLV :=
  mkTLV pcrTypeValue [pcrNum].

Definition UnmarshalPCR (tlv : TLV) : result byte :=
  if decide (Type_ tlv ≠ pcrTypeValue)
  then Err (ErrPCRFieldType (Type_ tlv))
  else if decide (uint32 (Z.of_nat (length (Value tlv))) ≠ pcrValueLength)
  then Err (ErrPCRFieldLength (length (Value tlv)))
  else index (Value tlv) 0.

Section Package.
Context `{HashLib}.

(** The loop of [createDigestField] over the entries in the order the
    [range] statement yields them; [buf] is the local buffer. *)
Fixpoint createDigestField_loop (entries : list (Hash * bytes)) (buf : Buffer)
  : result Buffer :=
  match entries with
  | [] => Ok buf
  | (hashAlgo, hash) :: rest =>
      (size <- Hash_Size hashAlgo;;
       if decide (Z.of_nat (length hash) ≠ size)
       then Err (ErrDigestLength (length hash) size)
       else
         tpmHashAlg <- HashToAlgorithm hashAlgo;;
         let singleDigestTLV := mkTLV (uint8 tpmHashAlg) hash in
         let d := MarshalBinary singleDigestTLV in
         createDigestField_loop rest (buf ++ d))%result
  end.

Definition createDigestField (range : range_order) (digestMap : gmap Hash bytes)
  : result TLV :=
  (buf <- createDigestField_loop (range digestMap) [];;
   Ok (mkTLV digestsTypeValue buf))%result.

(** The loop of [UnmarshalDigests]: one iteration per unit of [fuel];
    [None] when the fuel runs out before the buffer is empty. *)
Fixpoint UnmarshalDigests_loop (fuel : nat) (buf : Buffer)
    (digestsMap : gmap Hash bytes) : option (result (gmap Hash bytes)) :=
  if decide (0 < Buffer_Len buf)%nat then
    match fuel with
    | O => None
    | S fuel' =>
        match UnmarshalFirstTLV buf with
        | (Err EOF, _) => Some (Err ErrBufferEnds)
        | (Err e, _) => Some (Err e)
        | (Panic, _) => Some Panic
        | (Ok digestTLV, buf') =>
            match Algorithm_Hash (Z_of_byte (Type_ digestTLV)) with
            | Ok hashAlg =>
                UnmarshalDigests_loop fuel' buf'
                  (<[hashAlg := Value digestTLV]> digestsMap)
            | Err e => Some (Err e)
            | Panic => Some Panic
            end
        end
    end
  else Some (Ok digestsMap).

(** [UnmarshalDigests]; every iteration consumes at least one byte, so
    [length (Value tlv)] iterations are enough. *)
Definition UnmarshalDigests (tlv : TLV) : option (result (gmap Hash bytes)) :=
  if decide (Type_ tlv ≠ digestsTypeValue)
  then Some (Err ErrNotDigests)
  else UnmarshalDigests_loop (length (Value tlv)) (Value tlv) ∅.

Definition createCELR {A} `{Content A} (range : range_order) (recNum : Z)
    (pcr : byte) (digestsmap : gmap Hash bytes) (event : A) : result Record_ :=
  let recnumField := createRecNumField recNum in
  let pcrField := createPCRField pcr in
  (digestField <- createDigestField range digestsmap;;
   Ok (mkRecord recnumField pcrField digestField (GetTLV event)))%result.

(** The first loop of [AppendEvent]: one digest per requested hash, a
    later request for the same hash replacing the earlier entry. *)
Fixpoint AppendEvent_digests {A} `{Content A} (hashAlgos : list Hash) (event : A)
    (digestsMap : gmap Hash bytes) : result (gmap Hash bytes) :=
  match hashAlgos with
  | [] => Ok digestsMap
  | hashAlgo :: rest =>
      (digest <- GenerateDigest event hashAlgo;;
       AppendEvent_digests rest event (<[hashAlgo := digest]> digestsMap))%result
  end.

(** [AppendEvent]: the log after the call and the call's outcome.  The
    [tpm] argument is not used by the code; [range] is the order of the
    one map iteration the call makes. *)
Definition AppendEvent {A} `{Content A} (range : range_order) (c : CEL) (pcr : Z)
    (hashAlgos : list Hash) (event : A) : CEL * result unit :=
  if decide (length hashAlgos = 0%nat) then (c, Err ErrNoHashAlgo)
  else
    match AppendEvent_digests hashAlgos event ∅ with
    | Err e => (c, Err e)
    | Panic => (c, Panic)
    | Ok digestsMap =>
        match createCELR range (uint64 (Z.of_nat (length (Records c))))
                (uint8 pcr) digestsMap event with
        | Err e => (c, Err e)
        | Panic => (c, Panic)
        | Ok celr => (mkCEL (Records c ++ [celr]), Ok tt)
        end
    end.

End Package.

(** [EncodeCELR]. *)
Definition EncodeCELR (r : Record_) : M unit :=
  (let recnumField := MarshalBinary (RECNUM r) in
   let pcrField := MarshalBinary (PCR r) in
   let digestsField := MarshalBinary (Digests r) in
   let eventField := MarshalBinary (Content_ r) in
   _ <- Buffer_Write recnumField;;
   _ <- Buffer_Write pcrField;;
   _ <- Buffer_Write digestsField;;
   _ <- Buffer_Write eventField;;
   ret tt)%buffer.

(** [EncodeCEL]: the loop over [c.Records]. *)
Fixpoint EncodeCEL_loop (records : list Record_) : M unit :=
  match records with
  | [] => ret tt
  | record :: rest => (_ <- EncodeCELR record;; EncodeCEL_loop rest)%buffer
  end.

Definition EncodeCEL (c : CEL) : M unit := EncodeCEL_loop (Records c).

(** [DecodeToCELR]. *)
Definition DecodeToCELR : M Record_ :=
  (recnum <- UnmarshalFirstTLV;;
   if decide (Type_ recnum ≠ recnumTypeValue)
   then fail (ErrRecnumTLVType (Type_ recnum))
   else
     pcr <- UnmarshalFirstTLV;;
     if decide (Type_ pcr ≠ pcrTypeValue)
     then fail (ErrPCRTLVType (Type_ pcr))
     else
       digests <- UnmarshalFirstTLV;;
       if decide (Type_ digests ≠ digestsTypeValue)
       then fail (ErrDigestsTLVType (Type_ digests))
       else
         content <- UnmarshalFirstTLV;;
         ret (mkRecord recnum pcr digests content))%buffer.

(** The loop of [DecodeToCEL], one iteration per unit of [fuel]; [None]
    when the fuel runs out before the buffer is empty. *)
Fixpoint DecodeToCEL_loop (fuel : nat) (records : list Record_) (buf : Buffer)
  : option (result CEL * Buffer) :=
  if decide (0 < Buffer_Len buf)%nat then
    match fuel with
    | O => None
    | S fuel' =>
        match DecodeToCELR buf with
        | (Err EOF, buf') => Some (Err ErrBufferEnds, buf')
        | (Err e, buf') => Some (Err e, buf')
        | (Panic, buf') => Some (Panic, buf')
        | (Ok celr, buf') => DecodeToCEL_loop fuel' (records ++ [celr]) buf'
        end
    end
  else Some (Ok (mkCEL records), buf).

(** [DecodeToCEL]; a decoded record consumes at least one byte, so
    [length buf] iterations are enough. *)
Definition DecodeToCEL (buf : Buffer) : option (result CEL * Buffer) :=
  DecodeToCEL_loop (length buf) [] buf.

(** The logs built from an empty [CEL] by calls of [AppendEvent], counted
    by the calls that returned a nil error; each call has its own event,
    arguments and map iteration order.  A call that does not return
    normally hands back the log it left. *)
Inductive built `{HashLib} : nat -> CEL -> Prop :=
| built_empty : built 0 (mkCEL [])
| built_append n c c' A (inst : Content A) range pcr hashAlgos (event : A) :
    built n c ->
    range_valid range ->
    AppendEvent range c pcr hashAlgos event = (c', Ok tt) ->
    built (S n) c'
| built_failed n c c' r A (inst : Content A) range pcr hashAlgos (event : A) :
    built n c ->
    range_valid range ->
    AppendEvent range c pcr hashAlgos event = (c', r) ->
    r ≠ Ok tt ->
    built n c'.

(** A value of interface type [Content], given by its two methods. *)
Record ContentValue : Type := mkContent {
  content_digest : Hash -> result bytes;
  content_tlv : TLV
}.

#[global]
Instance ContentValue_Content : Content ContentValue := {
  GenerateDigest := content_digest;
  GetTLV := content_tlv
}.

(** ** The library tables used to run the code on concrete inputs

    [crypto.Hash] constants and digest sizes of Go's package crypto, and
    the [hashInfo] table of package tpm2 (go-tpm).  The properties of
    the package below are proved for every [HashLib]; this instance
    serves for the concrete runs. *)
Module GoLib.

Definition SHA1 : Hash := 3.
Definition SHA256 : Hash := 5.
Definition SHA384 : Hash := 6.
Definition SHA512 : Hash := 7.
Definition SHA3_256 : Hash := 11.
Definition SHA3_384 : Hash := 12.
Definition SHA3_512 : Hash := 13.
Definition maxHash : Hash := 20.

(** [digestSizes], indexed by hash; index 0 is unused. *)
Definition digestSizes : list Z :=
  [0; 16; 16; 20; 28; 32; 48; 64; 36; 20; 28; 32; 48; 64; 28; 32; 32; 32; 48; 64].

Definition Size (h : Hash) : result Z :=
  if decide (0 < h ∧ h < maxHash)
  then index digestSizes (Z.to_nat h)
  else Panic.

Definition AlgSHA1 : Algorithm := 0x0004.
Definition AlgSHA256 : Algorithm := 0x000B.
Definition AlgSHA384 : Algorithm := 0x000C.
Definition AlgSHA512 : Algorithm := 0x000D.
Definition AlgSHA3_256 : Algorithm := 0x0027.
Definition AlgSHA3_384 : Algorithm := 0x0028.
Definition AlgSHA3_512 : Algorithm := 0x0029.

Definition hashInfo : list (Algorithm * Hash) :=
  [(AlgSHA1, SHA1); (AlgSHA256, SHA256); (AlgSHA384, SHA384);
   (AlgSHA512, SHA512); (AlgSHA3_256, SHA3_256); (AlgSHA3_384, SHA3_384);
   (AlgSHA3_512, SHA3_512)].

Definition ErrNoTPMAlgorithm : error := ErrExternal 1.
Definition ErrHashNotSupported : error := ErrExternal 2.

Fixpoint HashToAlgorithm_in (info : list (Algorithm * Hash)) (hash : Hash)
  : result Algorithm :=
  match info with
  | [] => Err ErrNoTPMAlgorithm
  | (alg, h) :: rest =>
      if decide (h = hash) then Ok alg else HashToAlgorithm_in rest hash
  end.

(** [Algorithm.Hash], with every hash of the table linked into the
    binary ([Available]). *)
Fixpoint Algorithm_Hash_in (info : list (Algorithm * Hash)) (a : Algorithm)
  : result Hash :=
  match info with
  | [] => Err ErrHashNotSupported
  | (alg, h) :: rest =>
      if decide (alg = a) then Ok h else Algorithm_Hash_in rest a
  end.

#[global]
Instance lib : HashLib := {
  Hash_Size := Size;
  HashToAlgorithm := HashToAlgorithm_in hashInfo;
  Algorithm_Hash := Algorithm_Hash_in hashInfo
}.

(** Two iteration orders of a map: the enumeration of its entries that
    [map_to_list] gives, and that enumeration backwards. *)
Definition enumerated : range_order := map_to_list.
Definition reversed : range_order := fun m => reverse (map_to_list m).

End GoLib.

(** ** tpm2tools: the register chain *)

(** The memory [computePCRValue] works on: the backing arrays of byte
    slices, by address.  A slice value is a window on one of them:
    [Len] elements from index [Offset] of array [Array], with room for
    [Cap] elements before the array ends or another owner's part
    begins.  Two slices of one array share its bytes. *)
Abbreviation Memory := (list bytes).

Record SliceHeader : Type := mkSliceHeader {
  Array : nat;
  Offset : nat;
  Len : nat;
  Cap : nat
}.

(** [s[0:len(s)]], the elements of [s] as the memory holds them. *)
Definition contents (mem : Memory) (s : SliceHeader) : bytes :=
  take (Len s) (drop (Offset s) (default [] (mem !! Array s))).

(** [copy(arr[index:], data)] for [data] that fits. *)
Definition write_at (arr : bytes) (index : nat) (data : bytes) : bytes :=
  take index arr ++ data ++ drop (index + length data)%nat arr.

(** A new array, at the next free address. *)
Definition allocate (mem : Memory) (arr : bytes) : nat * Memory :=
  (length mem, mem ++ [arr]).

Section Chain.
Variable Sum256 : bytes -> bytes.

(** The capacity the runtime gives to the array of a slice that
    [append] has to grow, from the old capacity and the length needed;
    it differs between releases of Go. *)
Variable growslice : nat -> nat -> nat.

(** [append(s, extension...)] on byte slices.  When the elements fit in
    the capacity of [s] they are copied into the array of [s], right
    behind its elements, and the result shares that array; the copy
    reads [extension] whole before it writes (memmove), so the two may
    overlap.  Otherwise a new array is allocated, zeroed, and filled
    with the elements of both. *)
Definition append (mem : Memory) (s extension : SliceHeader)
    : SliceHeader * Memory :=
  let added := contents mem extension in
  let n := (Len s + Len extension)%nat in
  if decide (n <= Cap s)%nat then
    (mkSliceHeader (Array s) (Offset s) n (Cap s),
     alter (fun arr => write_at arr (Offset s + Len s) added) (Array s) mem)
  else
    let newcap := growslice (Cap s) n in
    let '(array, mem) :=
      allocate mem (contents mem s ++ added ++ repeat x00 (newcap - n)) in
    (mkSliceHeader array 0 n newcap, mem).

(** [computePCRValue].  [sum] is a new array variable in every
    iteration, and [sum[:]] the slice of all of it: its length and its
    capacity are the size of the hash.  [extensions] is taken as the
    list of its slice values: the function only reads it, and the
    byte copy of [append] cannot reach an array of slice values. *)
Fixpoint computePCRValue (mem : Memory) (base : SliceHeader)
    (extensions : list SliceHeader) : SliceHeader * Memory :=
  match extensions with
  | [] => (base, mem)
  | extension :: rest =>
      let '(appended, mem) := append mem base extension in
      let digest := Sum256 (contents mem appended) in
      let '(sum, mem) := allocate mem digest in
      let base := mkSliceHeader sum 0 (length digest) (length digest) in
      computePCRValue mem base rest
  end.

(** The register-extend semantics in the spec's words: a register that
    holds [old_value] holds [Hash(old_value || measurement_digest)] after
    an extend, and a chain is the extends of the measurements in order,
    the last one applied last. *)
Inductive extend_chain (base_digest : bytes) : list bytes -> bytes -> Prop :=
| chain_start : extend_chain base_digest [] base_digest
| chain_extend extensions current extension :
    extend_chain base_digest extensions current ->
    extend_chain base_digest (extensions ++ [extension])
      (Sum256 (current ++ extension)).

End Chain.

(** A slice value that the memory backs: its window lies inside its
    array.  A nil slice is a window without capacity, on any array. *)
Definition valid_slice (mem : Memory) (s : SliceHeader) : Prop :=
  exists arr, mem !! Array s = Some arr
    ∧ (Len s <= Cap s)%nat ∧ (Offset s + Cap s <= length arr)%nat.

(** [later] shares no byte with the first [Len extension] bytes of the
    spare capacity of [base]. *)
Definition apart (base extension later : SliceHeader) : Prop :=
  Array later ≠ Array base
  ∨ (Offset later + Len later <= Offset base + Len base)%nat
  ∨ (Offset base + Len base + Len extension <= Offset later)%nat.

(** ** tpm2tools: the sealing engine

    [seal_test.go] exercises [Seal] and [Unseal], whose code lies in
    another file of the package; the definitions of this module are
    modelled from the spec (sections 3 and 4.5 to 4.7). *)
Module Sealing.

(** Modelled from the spec: the error kinds of section 7 that the
    engine reports. *)
Inductive seal_error : Type :=
| AuthorizationFailure
| TransportFailure
| InvalidAssertion.

(** Modelled from the spec: an operation of the engine returns a value
    or one of these errors. *)
Inductive outcome (A : Type) : Type :=
| Done (a : A)
| Failed (e : seal_error).
Arguments Done {A} a.
Arguments Failed {A} e.

(** Modelled from the spec: errors are returned to the immediate caller
    and nothing is retried (section 7), so the first failure ends an
    operation. *)
Definition andThen {A B} (r : outcome A) (k : A -> outcome B) : outcome B :=
  match r with
  | Done a => k a
  | Failed e => Failed e
  end.

(** Modelled from the spec: the register value map of section 3, from a
    register index to its digest value. *)
Abbreviation RegisterMap := (gmap Z (list Byte.byte)) (only parsing).

(** Modelled from the spec: a selection is an algorithm with register
    indices (section 3, [CurrentRegisters]). *)
Record Selection : Type := mkSelection {
  sel_algorithm : Z;
  sel_registers : list Z
}.

(** Modelled from the spec: two selections are the same when their
    algorithm and register indices are. *)
#[global]
Instance Selection_eq_decision : EqDecision Selection.
Proof. solve_decision. Defined.

(** Modelled from the spec: the three variants of a policy assertion
    (section 3); the absent assertion ([nil]) is [None]. *)
Inductive PolicyAssertion : Type :=
| CurrentRegisters (selection : Selection)
| ExpectedRegisters (snapshot : RegisterMap)
| TargetRegisters (snapshot : RegisterMap).

(** Modelled from the spec: the state of the hardware root of trust as
    far as the engine reads it, the live registers of each algorithm's
    bank (section 6, [read_registers]). *)
Record Hardware : Type := mkHardware { live : Z -> RegisterMap }.

(** Modelled from the spec: the sealed blob of section 3, a payload
    bound to a parent key and to at most one authorization policy.  The
    spec leaves the blob opaque; the model keeps the secret behind the
    checks of [Unseal], and with the policy digest the selection that
    the policy names, which a live session has to assert. *)
Record SealedBlob : Type := mkBlob {
  blob_parent : Z;
  blob_payload : list Byte.byte;
  blob_policy : option (Selection * list Byte.byte)
}.

Section Engine.
(** The selected hash function of section 4.6, its identifier and
    digest size, and the two encodings that the section takes from the
    hardware's specification. *)
Variable H : bytes -> bytes.
Variable H_algorithm : Z.
Variable H_size : nat.
Variable policy_command_identifier : bytes.
Variable selection_structure_encoding : Selection -> bytes.

(** Modelled from the spec: [read_registers(indices, algorithm)] of
    section 6; a register the bank does not hold is a failed read. *)
Fixpoint read_registers (hw : Hardware) (indices : list Z) (algorithm : Z)
  : outcome RegisterMap :=
  match indices with
  | [] => Done ∅
  | i :: rest =>
      match live hw algorithm !! i with
      | None => Failed TransportFailure
      | Some value =>
          andThen (read_registers hw rest algorithm)
                  (fun m => Done (<[i := value]> m))
      end
  end.

(** Modelled from the spec: the registers a selection names, in
    ascending register-index order (section 4.6, step 2). *)
Definition ascending_registers (selection : Selection) : list Z :=
  merge_sort Z.le (remove_dups (sel_registers selection)).

(** Modelled from the spec: the concatenated values of the named
    registers (section 4.6, step 2), a register missing from the map
    being refused rather than defaulted (section 4.7). *)
Fixpoint register_values (indices : list Z) (registers : RegisterMap)
  : outcome bytes :=
  match indices with
  | [] => Done []
  | i :: rest =>
      match registers !! i with
      | None => Failed InvalidAssertion
      | Some value =>
          andThen (register_values rest registers)
                  (fun values => Done (value ++ values))
      end
  end.

(** Modelled from the spec: the offline policy-digest computation of
    section 4.6, steps 1 to 4. *)
Definition policy_digest (selection : Selection) (registers : RegisterMap)
  : outcome bytes :=
  let running_digest := repeat Byte.x00 H_size in
  andThen (register_values (ascending_registers selection) registers)
    (fun values =>
       let registers_digest := H values in
       Done (H (running_digest ++ policy_command_identifier
                  ++ selection_structure_encoding selection
                  ++ registers_digest))).

(** Modelled from the spec: the selection of an explicit snapshot, its
    registers under the selected algorithm. *)
Definition snapshot_selection (snapshot : RegisterMap) : Selection :=
  mkSelection H_algorithm (map fst (map_to_list snapshot)).

(** Modelled from the spec: policy assertion evaluation, section 4.5:
    the selection a policy names and the register-value map it
    certifies against. *)
Definition evaluate (hw : Hardware) (assertion : PolicyAssertion)
  : outcome (Selection * RegisterMap) :=
  match assertion with
  | CurrentRegisters selection =>
      andThen (read_registers hw (sel_registers selection)
                 (sel_algorithm selection))
              (fun registers => Done (selection, registers))
  | ExpectedRegisters snapshot => Done (snapshot_selection snapshot, snapshot)
  | TargetRegisters snapshot => Done (snapshot_selection snapshot, snapshot)
  end.

(** Modelled from the spec: [Seal] of section 4.7.  The assertion is
    evaluated, the authorization digest computed, and the blob bound to
    it; without an assertion the blob has no register policy. *)
Definition Seal (hw : Hardware) (parent : Z) (secret : bytes)
    (assertion : option PolicyAssertion) : outcome SealedBlob :=
  match assertion with
  | None => Done (mkBlob parent secret None)
  | Some a =>
      andThen (evaluate hw a) (fun '(selection, registers) =>
      andThen (policy_digest selection registers) (fun digest =>
      Done (mkBlob parent secret (Some (selection, digest)))))
  end.

(** Modelled from the spec: the digest presented to a blob's policy by
    [Unseal] of section 4.7: from a live policy session over the
    registers the policy names when [certify_assertion] is nil, from the
    assertion's evaluated map when it is [CurrentRegisters] or
    [ExpectedRegisters]. *)
Definition presented_digest (hw : Hardware) (policy_selection : Selection)
    (certify_assertion : option PolicyAssertion) : outcome bytes :=
  match certify_assertion with
  | None =>
      andThen (read_registers hw (sel_registers policy_selection)
                 (sel_algorithm policy_selection))
              (policy_digest policy_selection)
  | Some (TargetRegisters _) => Failed InvalidAssertion
  | Some a =>
      andThen (evaluate hw a) (fun '(selection, registers) =>
      policy_digest selection registers)
  end.

(** Modelled from the spec: [Unseal] of section 4.7.  The secret is
    released under the parent key the blob was sealed with, and, when
    the blob has a policy, only to the digest embedded in it. *)
Definition Unseal (hw : Hardware) (blob : SealedBlob) (parent : Z)
    (certify_assertion : option PolicyAssertion) : outcome bytes :=
  if decide (parent ≠ blob_parent blob) then Failed TransportFailure
  else
    match blob_policy blob with
    | None => Done (blob_payload blob)
    | Some (policy_selection, embedded) =>
        andThen (presented_digest hw policy_selection certify_assertion)
          (fun presented =>
             if decide (presented = embedded)
             then Done (blob_payload blob)
             else Failed AuthorizationFailure)
    end.

End Engine.
End Sealing.

(** ** Predicates of the statements *)

(** A TLV is well formed when the length of its value fits the four-byte
    length field. *)
Definition valid_TLV (tlv : TLV) : Prop :=
  Z.of_nat (length (Value tlv)) < 2 ^ 32.

(** A valid record: four well-formed TLVs, the first three with the
    types of their positions. *)
Definition valid_Record (r : Record_) : Prop :=
  (valid_TLV (RECNUM r) ∧ valid_TLV (PCR r)
   ∧ valid_TLV (Digests r) ∧ valid_TLV (Content_ r))
  ∧ Type_ (RECNUM r) = recnumTypeValue
  ∧ Type_ (PCR r) = pcrTypeValue
  ∧ Type_ (Digests r) = digestsTypeValue.

(** The bytes [EncodeCELR] and [EncodeCEL] leave in a fresh buffer. *)
Definition record_bytes (r : Record_) : bytes := snd (EncodeCELR r []).
Definition log_bytes (c : CEL) : bytes := snd (EncodeCEL c []).

(** The length a stream declares in the four bytes after its first. *)
Definition declared_length (buf : Buffer) : Z :=
  match Uint32 (take 4 (drop 1 buf)) with
  | Ok n => n
  | _ => 0
  end.

(** A stream starts with a whole TLV: the type byte, the length field
    and the declared number of value bytes are all there. *)
Definition complete (buf : Buffer) : Prop :=
  (5 <= length buf)%nat ∧ 5 + declared_length buf <= Z.of_nat (length buf).

(** The number a byte string denotes in base 256, most significant byte
    first. *)
Definition big_endian_value (b : bytes) : Z :=
  fold_left (fun acc x => 256 * acc + Z_of_byte x) b 0.

(** An entry of a digest map that [createDigestField] accepts: the
    digest has the size of its hash, and the hash has a TPM algorithm. *)
Definition good_digest `{HashLib} (hashAlgo : Hash) (hash : bytes) : Prop :=
  Hash_Size hashAlgo = Ok (Z.of_nat (length hash))
  ∧ is_Ok (HashToAlgorithm hashAlgo) = true.

(** The tables of the library agree with each other and with the
    length field of a TLV: the algorithm identifier that
    [HashToAlgorithm] gives for a hash, cut to the type byte of a nested
    TLV, is read by [Algorithm.Hash] as that hash, and a digest size is
    below [2 ^ 32]. *)
Definition lib_consistent `{HashLib} : Prop :=
  (forall hashAlgo alg,
     HashToAlgorithm hashAlgo = Ok alg ->
     Algorithm_Hash (Z_of_byte (uint8 alg)) = Ok hashAlgo)
  ∧ (forall hashAlgo size, Hash_Size hashAlgo = Ok size -> size < 2 ^ 32).

(** ** Concrete inputs *)

(** A record as [AppendEvent] builds them: one SHA-1 digest of twenty
    bytes and a two-byte event. *)
Definition sample_record (n : Z) : Record_ :=
  mkRecord (createRecNumField n) (createPCRField x07)
    (mkTLV x03 (MarshalBinary (mkTLV x04 (repeat xaa 20))))
    (mkTLV x50 [x68; x69]).

(** An event whose digest under a hash of the library is a run of
    [0xaa] bytes of that hash's size, and which fails for other hashes. *)
Definition sample_event : ContentValue :=
  mkContent
    (fun hashAlgo =>
       if decide (0 < hashAlgo ∧ hashAlgo < GoLib.maxHash)
       then rbind (GoLib.Size hashAlgo) (fun n => Ok (repeat xaa (Z.to_nat n)))
       else Err (ErrExternal 3))
    (mkTLV x50 [x68; x69]).

(** A log after two appends, the second asking for two digests. *)
Definition sample_log_1 : CEL :=
  fst (AppendEvent GoLib.enumerated (mkCEL []) 7 [GoLib.SHA1] sample_event).

Definition sample_log_2 : CEL :=
  fst (AppendEvent GoLib.reversed sample_log_1 23
         [GoLib.SHA256; GoLib.SHA1] sample_event).

(** A digest map with two algorithms. *)
Definition sample_digests : gmap Z bytes :=
  <[GoLib.SHA1 := repeat xaa 20]> (<[GoLib.SHA256 := repeat xbb 32]> ∅).

(** A stand-in for a hash function: a one-byte checksum. *)
Definition sample_hash (b : bytes) : bytes :=
  [byte_of_Z (fold_left (fun acc x => 31 * acc + Z_of_byte x) b 7)].

(** A runtime that grows a slice to exactly the length needed. *)
Definition sample_growslice (oldcap needed : nat) : nat := needed.

(** A register bank for algorithm 11 holding registers 7 and 23, a
    selection of both, and an encoding of selections. *)
Definition sample_hardware : Sealing.Hardware :=
  Sealing.mkHardware
    (fun algorithm =>
       if decide (algorithm = 11)
       then <[7 := repeat x00 32]> (<[23 := repeat x01 32]> ∅)
       else ∅).

Definition sample_selection : Sealing.Selection :=
  Sealing.mkSelection 11 [7; 23].

Definition sample_selection_encoding (selection : Sealing.Selection) : bytes :=
  byte_of_Z (Sealing.sel_algorithm selection)
    :: map byte_of_Z (Sealing.ascending_registers selection).

Definition sample_secret : bytes := [x74; x65; x73; x74].

(** The DIGESTS field of the sample digests, SHA-1 first. *)
Definition sample_digest_field : TLV :=
  mkTLV x03 (MarshalBinary (mkTLV x04 (repeat xaa 20))
               ++ MarshalBinary (mkTLV x0b (repeat xbb 32))).

(** * Properties *)

(** ** Bytes and big-endian integers *)

Lemma Z_of_byte_range (b : byte) : 0 <= Z_of_byte b < 256.
Proof.
  unfold Z_of_byte. pose proof (Byte.to_N_bounded b). lia.
Qed.

Lemma byte_of_Z_of_byte (b : byte) : byte_of_Z (Z_of_byte b) = b.
Proof.
  unfold byte_of_Z, Z_of_byte.
  change 255 with (Z.ones 8). rewrite Z.land_ones by lia.
  pose proof (Byte.to_N_bounded b).
  rewrite Z.mod_small by lia.
  rewrite N2Z.id, Byte.of_to_N. reflexivity.
Qed.

Lemma Z_of_byte_of_Z (v : Z) : Z_of_byte (byte_of_Z v) = v mod 2 ^ 8.
Proof.
  unfold byte_of_Z, Z_of_byte.
  change 255 with (Z.ones 8). rewrite Z.land_ones by lia.
  pose proof (Z.mod_pos_bound v (2 ^ 8) ltac:(lia)) as Hb.
  destruct (Byte.of_N (Z.to_N (v mod 2 ^ 8))) as [b|] eqn:E.
  - apply Byte.to_of_N in E. rewrite E. lia.
  - apply Byte.of_N_None_iff in E. lia.
Qed.

(** [byte(v)] is fixed by the low eight bits of [v]. *)
Lemma byte_of_Z_bits (v : Z) (b : byte) :
  (forall n, 0 <= n < 8 -> Z.testbit v n = Z.testbit (Z_of_byte b) n) ->
  byte_of_Z v = b.
Proof.
  intros Hbits. rewrite <- (byte_of_Z_of_byte b) at 1.
  assert (Z.land v 255 = Z.land (Z_of_byte b) 255) as Hland.
  { apply Z.bits_inj'. intros n Hn. rewrite !Z.land_spec.
    destruct (Z.lt_ge_cases n 8).
    - rewrite Hbits by lia. reflexivity.
    - change 255 with (Z.ones 8). rewrite Z.ones_spec_high by lia.
      now rewrite !andb_false_r. }
  unfold byte_of_Z. now rewrite Hland.
Qed.

Lemma testbit_above (v k n : Z) :
  0 <= v < 2 ^ k -> k <= n -> Z.testbit v n = false.
Proof.
  intros Hv Hn. rewrite <- (Z.mod_small v (2 ^ k)) by lia.
  apply Z.mod_pow2_bits_high. split; [|lia].
  destruct (Z.le_gt_cases 0 k); [lia|].
  rewrite Z.pow_neg_r in Hv by lia. lia.
Qed.

(** The bits of a byte taken from position [s] and put back there. *)
Lemma testbit_byte_at (v s n : Z) :
  0 <= s -> 0 <= n ->
  Z.testbit (Z.shiftl (Z.shiftr v s mod 2 ^ 8) s) n
  = if decide (s <= n < s + 8) then Z.testbit v n else false.
Proof.
  intros Hs Hn. rewrite Z.shiftl_spec by lia.
  case_decide as Hr.
  - rewrite Z.mod_pow2_bits_low by lia.
    rewrite Z.shiftr_spec by lia. f_equal. lia.
  - destruct (Z.lt_ge_cases n s).
    + apply Z.testbit_neg_r. lia.
    + apply Z.mod_pow2_bits_high. lia.
Qed.

Lemma testbit_byte_low (v n : Z) :
  0 <= n ->
  Z.testbit (v mod 2 ^ 8) n
  = if decide (0 <= n < 0 + 8) then Z.testbit v n else false.
Proof.
  intros Hn. rewrite <- (testbit_byte_at v 0 n) by lia.
  now rewrite Z.shiftr_0_r, Z.shiftl_0_r.
Qed.

(** The bits of a byte value shifted to position [s]. *)
Lemma testbit_shifted_byte (b : byte) (s n : Z) :
  0 <= s -> 0 <= n ->
  Z.testbit (Z.shiftl (Z_of_byte b) s) n
  = if decide (s <= n < s + 8) then Z.testbit (Z_of_byte b) (n - s) else false.
Proof.
  intros Hs Hn. rewrite Z.shiftl_spec by lia.
  case_decide as Hr; [reflexivity|].
  destruct (Z.lt_ge_cases n s).
  - apply Z.testbit_neg_r. lia.
  - apply (testbit_above _ 8); [apply Z_of_byte_range | lia].
Qed.

Lemma testbit_unshifted_byte (b : byte) (n : Z) :
  0 <= n ->
  Z.testbit (Z_of_byte b) n
  = if decide (0 <= n < 0 + 8) then Z.testbit (Z_of_byte b) (n - 0) else false.
Proof.
  intros Hn. rewrite <- (testbit_shifted_byte b 0 n) by lia.
  now rewrite Z.shiftl_0_r.
Qed.

Ltac bytes_bitwise :=
  apply Z.bits_inj'; intros ? ?;
  rewrite ?Z.lor_spec, ?testbit_byte_at, ?testbit_byte_low by lia;
  repeat case_decide; rewrite ?orb_false_r; simpl; try reflexivity; try lia.

(** A number that fits 32 bits is read back from its four bytes. *)
Lemma Uint32_PutUint32 (v : Z) : 0 <= v < 2 ^ 32 -> Uint32 (PutUint32 v) = Ok v.
Proof.
  intros Hv. unfold Uint32, PutUint32. cbn [index lookup list_lookup rbind].
  rewrite !Z_of_byte_of_Z. f_equal.
  bytes_bitwise. symmetry. apply (testbit_above v 32); lia.
Qed.

(** A number that fits 64 bits is read back from its eight bytes. *)
Lemma Uint64_PutUint64 (v : Z) : 0 <= v < 2 ^ 64 -> Uint64 (PutUint64 v) = Ok v.
Proof.
  intros Hv. unfold Uint64, PutUint64. cbn [index lookup list_lookup rbind].
  rewrite !Z_of_byte_of_Z. f_equal.
  bytes_bitwise. symmetry. apply (testbit_above v 64); lia.
Qed.

Lemma byte_of_Z_ext (v w : Z) :
  (forall n, 0 <= n < 8 -> Z.testbit v n = Z.testbit w n) ->
  byte_of_Z v = byte_of_Z w.
Proof.
  intros Hbits. apply byte_of_Z_bits. intros n Hn.
  rewrite Z_of_byte_of_Z, Z.mod_pow2_bits_low by lia. now apply Hbits.
Qed.

Ltac byte_bits :=
  apply byte_of_Z_bits; intros ? ?;
  rewrite ?Z.shiftr_spec, ?Z.lor_spec by lia;
  rewrite ?testbit_shifted_byte by lia;
  rewrite (testbit_unshifted_byte _ (_ + _)) by lia || idtac;
  repeat case_decide; rewrite ?orb_false_r, ?orb_false_l; simpl;
  try lia; try (f_equal; lia).

(** Four bytes are the encoding of the number they are read as. *)
Lemma PutUint32_Uint32 (b0 b1 b2 b3 : byte) (v : Z) :
  Uint32 [b0; b1; b2; b3] = Ok v -> PutUint32 v = [b0; b1; b2; b3].
Proof.
  unfold Uint32. cbn [index lookup list_lookup rbind]. intros [= <-].
  unfold PutUint32. repeat f_equal; [byte_bits ..|].
  apply byte_of_Z_bits; intros n Hn.
  rewrite ?Z.lor_spec, ?testbit_shifted_byte by lia.
  rewrite (testbit_unshifted_byte _ n) by lia.
  repeat case_decide; rewrite ?orb_false_r; simpl; try lia; f_equal; lia.
Qed.

Ltac shifted_mod k :=
  apply byte_of_Z_ext; intros ? ?;
  rewrite ?Z.shiftr_spec by lia;
  rewrite (Z.mod_pow2_bits_low _ k) by lia; reflexivity.

Ltac each_byte tac :=
  repeat (apply (f_equal2 cons)); try reflexivity; tac.

(** Only the low 32 (64) bits of a number are written. *)
Lemma PutUint32_mod (v : Z) : PutUint32 (v mod 2 ^ 32) = PutUint32 v.
Proof.
  unfold PutUint32. each_byte ltac:(shifted_mod 32).
Qed.

Lemma PutUint64_mod (v : Z) : PutUint64 (v mod 2 ^ 64) = PutUint64 v.
Proof.
  unfold PutUint64. each_byte ltac:(shifted_mod 64).
Qed.

Lemma Uint32_range (b0 b1 b2 b3 : byte) (v : Z) :
  Uint32 [b0; b1; b2; b3] = Ok v -> 0 <= v < 2 ^ 32.
Proof.
  intros Hv. pose proof (PutUint32_Uint32 _ _ _ _ _ Hv) as Hput.
  rewrite <- PutUint32_mod in Hput.
  pose proof (Z.mod_pos_bound v (2 ^ 32) ltac:(lia)) as Hb.
  pose proof (Uint32_PutUint32 _ Hb) as Hget.
  rewrite Hput, Hv in Hget. injection Hget as Hget. lia.
Qed.

(** The bytes of [PutUint64] denote the low 64 bits of the number. *)
Lemma big_endian_value_PutUint64 (v : Z) :
  big_endian_value (PutUint64 v) = v mod 2 ^ 64.
Proof.
  unfold big_endian_value, PutUint64. cbn [fold_left].
  rewrite !Z_of_byte_of_Z, !Z.shiftr_div_pow2 by lia.
  change (2 ^ 64) with (2 ^ 56 * 2 ^ 8).
  Z.to_euclidean_division_equations. lia.
Qed.

(** ** The TLV codec *)

Lemma uint32_small (n : Z) : 0 <= n < 2 ^ 32 -> uint32 n = n.
Proof. intros Hn. unfold uint32. now apply Z.mod_small. Qed.

Lemma MarshalBinary_length (tlv : TLV) :
  length (MarshalBinary tlv) = (5 + length (Value tlv))%nat.
Proof. reflexivity. Qed.

(** On at least five bytes [UnmarshalBinary] compares the declared
    length with the number of bytes after the header. *)
Lemma UnmarshalBinary_header (t b0 b1 b2 b3 : byte) (value extra : bytes) (n : Z) :
  Uint32 [b0; b1; b2; b3] = Ok n ->
  UnmarshalBinary (mkSlice (t :: b0 :: b1 :: b2 :: b3 :: value) extra)
  = if decide (n ≠ uint32 (Z.of_nat (length value)))
    then Err ErrTLVLength
    else Ok (mkTLV t value).
Proof.
  intros Hn.
  unfold UnmarshalBinary, slice_lo_hi, slice_lo,
    tlvTypeFieldLength, tlvLengthFieldLength.
  cbn [elems spare Nat.add length].
  rewrite decide_True by lia. rewrite decide_True by lia.
  cbn [rbind app take drop]. rewrite take_0, drop_0, Hn.
  cbn [rbind index lookup list_lookup].
  case_decide; reflexivity.
Qed.

(** The slice expressions of [UnmarshalBinary] go out of range on fewer
    than five bytes, whatever the capacity. *)
Lemma UnmarshalBinary_short (data : slice) :
  (length (elems data) < 5)%nat -> UnmarshalBinary data = Panic.
Proof.
  intros Hlen. unfold UnmarshalBinary.
  destruct (slice_lo_hi data _ _) as [lengthField| |] eqn:Hfield;
    cbn [rbind]; [|unfold slice_lo_hi in Hfield; case_decide; discriminate|reflexivity].
  destruct (Uint32 lengthField) as [n|e|] eqn:Hn; cbn [rbind]; [| |reflexivity].
  - unfold slice_lo, tlvTypeFieldLength, tlvLengthFieldLength.
    rewrite decide_False by (cbn [Nat.add]; lia). reflexivity.
  - unfold Uint32, index in Hn.
    repeat (destruct (lengthField !! _); cbn [rbind] in Hn; try discriminate).
Qed.

Lemma UnmarshalFirstTLV_short (buf : bytes) :
  (length buf < 5)%nat -> UnmarshalFirstTLV buf = (Err EOF, []).
Proof.
  intros Hlen.
  destruct buf as [|t [|b0 [|b1 [|b2 [|b3 rest]]]]]; try reflexivity.
  cbn [length] in Hlen. lia.
Qed.

Lemma UnmarshalFirstTLV_header (t b0 b1 b2 b3 : byte) (rest : bytes) (n : Z) :
  Uint32 [b0; b1; b2; b3] = Ok n ->
  UnmarshalFirstTLV (t :: b0 :: b1 :: b2 :: b3 :: rest)
  = if decide (n <= Z.of_nat (length rest))
    then (Ok (mkTLV t (take (Z.to_nat n) rest)), drop (Z.to_nat n) rest)
    else (Err EOF, []).
Proof.
  intros Hn. pose proof (Uint32_range _ _ _ _ _ Hn) as Hrange.
  unfold UnmarshalFirstTLV, bind, lift, fail, tlvLengthFieldLength.
  cbn [Buffer_ReadByte Buffer_Read take drop length].
  rewrite take_0, drop_0. cbn [length].
  rewrite decide_False by lia. rewrite Hn.
  destruct rest as [|r rest]; cbn [Buffer_Read].
  - destruct (decide (Z.to_nat n = 0%nat)) as [Hz|Hz].
    + rewrite decide_False by (cbn [length]; rewrite uint32_small; lia).
      rewrite decide_True by (cbn [length]; lia).
      cbn [app]. rewrite (UnmarshalBinary_header _ _ _ _ _ _ _ _ Hn).
      rewrite decide_False by (cbn [length]; rewrite uint32_small; lia).
      now rewrite take_nil, drop_nil.
    + rewrite decide_False by (cbn [length]; lia). reflexivity.
  - set (avail := r :: rest). rewrite length_take.
    destruct (decide (n <= Z.of_nat (length avail))) as [Hfit|Hfit].
    + rewrite decide_False by (rewrite uint32_small; lia).
      cbn [app]. rewrite (UnmarshalBinary_header _ _ _ _ _ _ _ _ Hn).
      rewrite decide_False by (rewrite length_take, uint32_small; lia).
      reflexivity.
    + rewrite decide_True by (rewrite uint32_small; lia).
      rewrite drop_ge by lia. reflexivity.
Qed.

(** Reading back what [MarshalBinary] wrote. *)
Lemma UnmarshalFirstTLV_MarshalBinary (tlv : TLV) (rest : bytes) :
  valid_TLV tlv ->
  UnmarshalFirstTLV (MarshalBinary tlv ++ rest) = (Ok tlv, rest).
Proof.
  unfold valid_TLV. intros Hvalid. destruct tlv as [t value]. cbn [Value] in Hvalid.
  unfold MarshalBinary. cbn [Type_ Value].
  rewrite uint32_small by lia.
  pose proof (Uint32_PutUint32 (Z.of_nat (length value)) ltac:(lia)) as Hn.
  unfold PutUint32 in *. cbn [app].
  rewrite (UnmarshalFirstTLV_header _ _ _ _ _ _ _ Hn).
  rewrite decide_True by (rewrite length_app; lia).
  rewrite Nat2Z.id, take_app_length, drop_app_length. reflexivity.
Qed.

(** A TLV is returned only from a stream that starts with its encoding,
    and the stream is then advanced past exactly that encoding. *)
Lemma UnmarshalFirstTLV_Ok_inv (buf rest : bytes) (tlv : TLV) :
  UnmarshalFirstTLV buf = (Ok tlv, rest) ->
  buf = MarshalBinary tlv ++ rest ∧ valid_TLV tlv.
Proof.
  intros Hread.
  destruct (Nat.lt_ge_cases (length buf) 5) as [Hshort|Hlong].
  { rewrite UnmarshalFirstTLV_short in Hread by assumption. discriminate. }
  destruct buf as [|t [|b0 [|b1 [|b2 [|b3 avail]]]]]; cbn [length] in Hlong; try lia.
  destruct (Uint32 [b0; b1; b2; b3]) as [n| |] eqn:Hn;
    [|unfold Uint32 in Hn; discriminate ..].
  pose proof (Uint32_range _ _ _ _ _ Hn) as Hrange.
  rewrite (UnmarshalFirstTLV_header _ _ _ _ _ _ _ Hn) in Hread.
  case_decide as Hfit; [|discriminate].
  injection Hread as <- <-.
  unfold MarshalBinary, valid_TLV. cbn [Type_ Value]. rewrite length_take.
  replace (Z.of_nat (Z.to_nat n `min` length avail)) with n by lia.
  rewrite uint32_small by lia. rewrite (PutUint32_Uint32 _ _ _ _ _ Hn).
  cbn [app]. rewrite take_drop. split; [reflexivity | lia].
Qed.

(** C9. [UnmarshalBinary] returns, with the length-mismatch error or
    with the TLV made of the first byte and the bytes after the header,
    on every input of at least five bytes; on every shorter input a
    slice expression goes out of range and the call panics. *)
Theorem C9_UnmarshalBinary_needs_five_bytes (data : slice) :
  ((5 <= length (elems data))%nat ->
     UnmarshalBinary data = Err ErrTLVLength
     ∨ exists type, elems data !! 0%nat = Some type
         ∧ UnmarshalBinary data = Ok (mkTLV type (drop 5 (elems data))))
  ∧ ((length (elems data) < 5)%nat -> UnmarshalBinary data = Panic).
Proof.
  split; [|apply UnmarshalBinary_short].
  destruct data as [[|t [|b0 [|b1 [|b2 [|b3 value]]]]] extra];
    cbn [elems length]; intros Hlen; try lia.
  destruct (Uint32 [b0; b1; b2; b3]) as [n| |] eqn:Hn;
    [|unfold Uint32 in Hn; discriminate ..].
  rewrite (UnmarshalBinary_header _ _ _ _ _ _ _ _ Hn).
  case_decide; [now left|right]. exists t. split; reflexivity.
Qed.

(** C9 on six bytes with a wrong length field, and on four bytes in an
    array of six. *)
Lemma C9_UnmarshalBinary_witness :
  (UnmarshalBinary (mkSlice [x07; x00; x00; x00; x01; xaa] []) = Err ErrTLVLength
   ∨ exists type, [x07; x00; x00; x00; x01; xaa] !! 0%nat = Some type
       ∧ UnmarshalBinary (mkSlice [x07; x00; x00; x00; x01; xaa] [])
         = Ok (mkTLV type (drop 5 [x07; x00; x00; x00; x01; xaa])))
  ∧ UnmarshalBinary (mkSlice [x07; x00; x00; x00] [x00; x00]) = Panic.
Proof.
  split.
  - apply (proj1 (C9_UnmarshalBinary_needs_five_bytes
                    (mkSlice [x07; x00; x00; x00; x01; xaa] []))).
    cbn [elems length]. lia.
  - apply (proj2 (C9_UnmarshalBinary_needs_five_bytes
                    (mkSlice [x07; x00; x00; x00] [x00; x00]))).
    cbn [elems length]. lia.
Defined.

(** ** The cursor of [UnmarshalFirstTLV] *)

Lemma complete_header (t b0 b1 b2 b3 : byte) (rest : bytes) (n : Z) :
  Uint32 [b0; b1; b2; b3] = Ok n ->
  complete (t :: b0 :: b1 :: b2 :: b3 :: rest) <-> n <= Z.of_nat (length rest).
Proof.
  intros Hn. unfold complete, declared_length.
  cbn [drop take length]. rewrite take_0, Hn.
  split; [intros [_ Hfit]|intros Hfit; split]; lia.
Qed.

(** C3, the claim as stated fails: on a stream that ends inside the
    value bytes the bytes read so far are gone from the buffer. *)
Lemma C3_cursor_moves_on_EOF :
  fst (UnmarshalFirstTLV [x03; x00; x00; x00; x02; xaa]) = Err EOF
  ∧ snd (UnmarshalFirstTLV [x03; x00; x00; x00; x02; xaa])
    ≠ [x03; x00; x00; x00; x02; xaa].
Proof. split; [reflexivity | discriminate]. Qed.

(** C3, amended.  [UnmarshalFirstTLV] returns a TLV exactly when the
    stream starts with a whole TLV, and the cursor is then just past that
    TLV's encoding.  When the stream ends before the type byte, the
    length field or the declared value bytes are all there, the error is
    [io.EOF], never the length mismatch, and the call has consumed every
    byte it could read: the buffer is left empty. *)
Theorem C3_UnmarshalFirstTLV_cursor (buf : bytes) :
  (complete buf
   ∧ exists tlv rest, UnmarshalFirstTLV buf = (Ok tlv, rest)
       ∧ buf = MarshalBinary tlv ++ rest)
  ∨ (¬ complete buf ∧ UnmarshalFirstTLV buf = (Err EOF, [])).
Proof.
  destruct (Nat.lt_ge_cases (length buf) 5) as [Hshort|Hlong].
  { right. split; [unfold complete; lia | now apply UnmarshalFirstTLV_short]. }
  destruct buf as [|t [|b0 [|b1 [|b2 [|b3 avail]]]]]; cbn [length] in Hlong; try lia.
  destruct (Uint32 [b0; b1; b2; b3]) as [n| |] eqn:Hn;
    [|unfold Uint32 in Hn; discriminate ..].
  pose proof (UnmarshalFirstTLV_header t _ _ _ _ avail _ Hn) as Hread.
  rewrite (complete_header t _ _ _ _ avail _ Hn).
  destruct (decide (n <= Z.of_nat (length avail))) as [Hfit|Hfit].
  - left. split; [assumption|]. eexists _, _. split; [exact Hread|].
    now apply UnmarshalFirstTLV_Ok_inv in Hread.
  - right. split; assumption.
Qed.

(** ** Records and logs: encoding and decoding *)

Lemma EncodeCELR_bytes (r : Record_) (buf : bytes) :
  EncodeCELR r buf = (Ok tt, buf ++ record_bytes r).
Proof.
  unfold record_bytes, EncodeCELR, bind, ret, Buffer_Write.
  cbn [fst snd app]. now rewrite !app_assoc.
Qed.

Lemma EncodeCEL_loop_bytes (records : list Record_) (buf : bytes) :
  EncodeCEL_loop records buf
  = (Ok tt, buf ++ concat (map record_bytes records)).
Proof.
  revert buf. induction records as [|r records IH]; intros buf.
  - cbn [EncodeCEL_loop map concat]. unfold ret. now rewrite app_nil_r.
  - cbn [EncodeCEL_loop map concat]. unfold bind.
    rewrite EncodeCELR_bytes, IH. now rewrite app_assoc.
Qed.

Lemma log_bytes_concat (c : CEL) :
  log_bytes c = concat (map record_bytes (Records c)).
Proof.
  unfold log_bytes, EncodeCEL. now rewrite EncodeCEL_loop_bytes.
Qed.

Lemma record_bytes_fields (r : Record_) :
  record_bytes r
  = MarshalBinary (RECNUM r) ++ MarshalBinary (PCR r)
      ++ MarshalBinary (Digests r) ++ MarshalBinary (Content_ r).
Proof.
  unfold record_bytes, EncodeCELR, bind, ret, Buffer_Write.
  cbn [fst snd]. now rewrite app_nil_l, <- !app_assoc.
Qed.

Lemma record_bytes_nonempty (r : Record_) : (0 < length (record_bytes r))%nat.
Proof.
  rewrite record_bytes_fields, length_app, MarshalBinary_length. lia.
Qed.

Lemma DecodeToCELR_record_bytes (r : Record_) (rest : bytes) :
  valid_Record r -> DecodeToCELR (record_bytes r ++ rest) = (Ok r, rest).
Proof.
  intros [(Hrecnum & Hpcr & Hdigests & Hcontent) (Trecnum & Tpcr & Tdigests)].
  rewrite record_bytes_fields, <- !app_assoc.
  unfold DecodeToCELR, bind, ret, fail.
  rewrite UnmarshalFirstTLV_MarshalBinary by assumption.
  rewrite decide_False by (now intros Hne).
  rewrite UnmarshalFirstTLV_MarshalBinary by assumption.
  rewrite decide_False by (now intros Hne).
  rewrite UnmarshalFirstTLV_MarshalBinary by assumption.
  rewrite decide_False by (now intros Hne).
  rewrite UnmarshalFirstTLV_MarshalBinary by assumption.
  now destruct r.
Qed.

Lemma DecodeToCEL_loop_log (records : list Record_) :
  Forall valid_Record records ->
  forall (fuel : nat) (acc : list Record_),
    (length (concat (map record_bytes records)) <= fuel)%nat ->
    DecodeToCEL_loop fuel acc (concat (map record_bytes records))
    = Some (Ok (mkCEL (acc ++ records)), []).
Proof.
  induction 1 as [|r records Hr _ IH]; intros fuel acc Hfuel.
  - cbn [map concat]. destruct fuel; cbn [DecodeToCEL_loop];
      rewrite decide_False by (cbn; lia); now rewrite app_nil_r.
  - cbn [map concat] in *. rewrite length_app in Hfuel.
    pose proof (record_bytes_nonempty r).
    destruct fuel as [|fuel]; [lia|]. cbn [DecodeToCEL_loop].
    rewrite decide_True by (unfold Buffer_Len; rewrite length_app; lia).
    rewrite DecodeToCELR_record_bytes by assumption.
    rewrite IH by lia. now rewrite <- app_assoc.
Qed.

(** C1. Decoding the bytes [EncodeCELR] wrote for a valid record gives
    the record back and leaves what followed it; decoding the bytes
    [EncodeCEL] wrote for a log of valid records gives the log back and
    leaves nothing. *)
Theorem C1_encode_decode_roundtrip (r : Record_) (c : CEL) :
  valid_Record r ->
  Forall valid_Record (Records c) ->
  (EncodeCELR r [] = (Ok tt, record_bytes r)
   ∧ forall rest, DecodeToCELR (record_bytes r ++ rest) = (Ok r, rest))
  ∧ (EncodeCEL c [] = (Ok tt, log_bytes c)
     ∧ DecodeToCEL (log_bytes c) = Some (Ok c, [])).
Proof.
  intros Hr Hc. split; split.
  - now rewrite EncodeCELR_bytes.
  - intros rest. now apply DecodeToCELR_record_bytes.
  - unfold EncodeCEL. now rewrite EncodeCEL_loop_bytes, log_bytes_concat.
  - unfold DecodeToCEL. rewrite log_bytes_concat.
    rewrite DecodeToCEL_loop_log by (assumption || lia).
    now destruct c.
Qed.

Lemma valid_sample_record (n : Z) : valid_Record (sample_record n).
Proof. unfold valid_Record, valid_TLV. cbn. repeat split; lia. Qed.

(** C1 on the sample record and on a log of two records. *)
Lemma C1_roundtrip_witness :
  (EncodeCELR (sample_record 0) [] = (Ok tt, record_bytes (sample_record 0))
   ∧ forall rest,
       DecodeToCELR (record_bytes (sample_record 0) ++ rest)
       = (Ok (sample_record 0), rest))
  ∧ (EncodeCEL (mkCEL [sample_record 0; sample_record 1]) []
     = (Ok tt, log_bytes (mkCEL [sample_record 0; sample_record 1]))
     ∧ DecodeToCEL (log_bytes (mkCEL [sample_record 0; sample_record 1]))
       = Some (Ok (mkCEL [sample_record 0; sample_record 1]), [])).
Proof.
  apply (C1_encode_decode_roundtrip (sample_record 0)
           (mkCEL [sample_record 0; sample_record 1])).
  - apply valid_sample_record.
  - repeat constructor; apply valid_sample_record.
Defined.

(** ** Decoding always returns *)

Lemma DecodeToCELR_consumes (buf rest : bytes) (celr : Record_) :
  DecodeToCELR buf = (Ok celr, rest) -> (length rest < length buf)%nat.
Proof.
  unfold DecodeToCELR, bind, ret, fail.
  destruct (UnmarshalFirstTLV buf) as [[recnum| |] buf1] eqn:Hread;
    [|discriminate ..].
  apply UnmarshalFirstTLV_Ok_inv in Hread as [-> _].
  rewrite length_app, MarshalBinary_length.
  case_decide; [discriminate|].
  destruct (UnmarshalFirstTLV buf1) as [[pcr| |] buf2] eqn:Hread;
    [|discriminate ..].
  apply UnmarshalFirstTLV_Ok_inv in Hread as [-> _].
  rewrite length_app.
  case_decide; [discriminate|].
  destruct (UnmarshalFirstTLV buf2) as [[digests| |] buf3] eqn:Hread;
    [|discriminate ..].
  apply UnmarshalFirstTLV_Ok_inv in Hread as [-> _].
  rewrite length_app.
  case_decide; [discriminate|].
  destruct (UnmarshalFirstTLV buf3) as [[content| |] buf4] eqn:Hread;
    [|discriminate ..].
  apply UnmarshalFirstTLV_Ok_inv in Hread as [-> _].
  rewrite length_app. intros [= _ <-]. lia.
Qed.

Lemma DecodeToCEL_loop_total (fuel : nat) :
  forall (records : list Record_) (buf : bytes),
    (length buf <= fuel)%nat -> DecodeToCEL_loop fuel records buf ≠ None.
Proof.
  induction fuel as [|fuel IH]; intros records buf Hfuel.
  - destruct buf; [cbn; discriminate|cbn in Hfuel; lia].
  - cbn [DecodeToCEL_loop]. case_decide; [|discriminate].
    destruct (DecodeToCELR buf) as [[celr|e|] buf'] eqn:Hdecode;
      [|destruct e; discriminate|discriminate].
    apply DecodeToCELR_consumes in Hdecode. apply IH. lia.
Qed.

Lemma DecodeToCEL_total (buf : bytes) : DecodeToCEL buf ≠ None.
Proof. now apply DecodeToCEL_loop_total. Qed.

(** ** Digest fields, records and appends *)

Section PackageProperties.
Context `{HashLib}.

Lemma is_Ok_true {A} (r : result A) : is_Ok r = true <-> exists a, r = Ok a.
Proof.
  destruct r; cbn; split; try discriminate; eauto; intros [? ?]; discriminate.
Qed.

(** One iteration of the loop of [createDigestField] goes on to the next
    entry exactly when the entry is a good digest. *)
Lemma createDigestField_loop_cons (hashAlgo : Z) (hash : bytes)
    (rest : list (Z * bytes)) (buf : bytes) :
  (good_digest hashAlgo hash
   ∧ exists alg, HashToAlgorithm hashAlgo = Ok alg
       ∧ createDigestField_loop ((hashAlgo, hash) :: rest) buf
         = createDigestField_loop rest
             (buf ++ MarshalBinary (mkTLV (uint8 alg) hash)))
  ∨ (¬ good_digest hashAlgo hash
     ∧ is_Ok (createDigestField_loop ((hashAlgo, hash) :: rest) buf) = false).
Proof.
  unfold good_digest. cbn [createDigestField_loop].
  destruct (Hash_Size hashAlgo) as [size| |] eqn:Hsize; cbn [rbind];
    [|right; split; [intros [[=] _]|reflexivity] ..].
  destruct (decide (Z.of_nat (length hash) ≠ size)) as [Hne|Heq].
  { right. split; [intros [[=] _]; congruence|reflexivity]. }
  apply dec_stable in Heq. subst size.
  destruct (HashToAlgorithm hashAlgo) as [alg| |] eqn:Halg; cbn [rbind];
    [|right; split; [intros [_ [=]]|reflexivity] ..].
  left. split; [split; reflexivity|]. exists alg. split; reflexivity.
Qed.

(** The loop only adds to the buffer. *)
Lemma createDigestField_loop_prefix (entries : list (Z * bytes)) :
  forall buf out : bytes,
    createDigestField_loop entries buf = Ok out ->
    exists added, out = buf ++ added.
Proof.
  induction entries as [|[hashAlgo hash] rest IH]; intros buf out Hloop.
  - injection Hloop as <-. exists []. now rewrite app_nil_r.
  - destruct (createDigestField_loop_cons hashAlgo hash rest buf)
      as [(_ & alg & _ & Hstep)|[_ Hfail]].
    + rewrite Hstep in Hloop. apply IH in Hloop as [added ->].
      eexists. now rewrite <- app_assoc.
    + rewrite Hloop in Hfail. discriminate.
Qed.

(** The loop reaches the end of the entries exactly when all of them are
    good digests. *)
Lemma createDigestField_loop_Ok (entries : list (Z * bytes)) (buf : bytes) :
  is_Ok (createDigestField_loop entries buf) = true
  <-> Forall (uncurry good_digest) entries.
Proof.
  revert buf. induction entries as [|[hashAlgo hash] rest IH]; intros buf.
  - cbn. split; [constructor|reflexivity].
  - destruct (createDigestField_loop_cons hashAlgo hash rest buf)
      as [(Hgood & alg & _ & Hstep)|[Hbad Hfail]].
    + rewrite Hstep, IH. split.
      * now constructor.
      * now inversion 1.
    + rewrite Hfail. split; [discriminate|]. now inversion 1.
Qed.

Lemma createDigestField_Ok (range : range_order) (digestMap : gmap Z bytes) :
  range_valid range ->
  is_Ok (createDigestField range digestMap) = true
  <-> map_Forall good_digest digestMap.
Proof.
  intros Hrange. rewrite map_Forall_to_list, <- (Hrange digestMap).
  rewrite <- (createDigestField_loop_Ok _ []).
  unfold createDigestField.
  destruct (createDigestField_loop (range digestMap) []); reflexivity.
Qed.

Lemma createDigestField_Type (range : range_order) (digestMap : gmap Z bytes)
    (tlv : TLV) :
  createDigestField range digestMap = Ok tlv -> Type_ tlv = digestsTypeValue.
Proof.
  unfold createDigestField.
  destruct (createDigestField_loop _ _); cbn [rbind]; intros [= <-]; reflexivity.
Qed.

Lemma range_valid_empty (range : range_order) :
  range_valid range -> range ∅ = [].
Proof.
  intros Hrange. apply Permutation_nil_r.
  rewrite (Hrange ∅), map_to_list_empty. reflexivity.
Qed.


(** C5, amended.  [createCELR] returns a record exactly when every
    digest of the map has the size of its hash (and the hash has a TPM
    algorithm): it fails when some digest has another length, and a
    record it returns holds the four canonical TLVs.  The empty map is
    not refused: the record then has an empty DIGESTS value. *)
Theorem C5_createCELR_checks_digest_sizes {A} `{Content A}
    (range : range_order) (recNum : Z) (pcr : byte)
    (digestsmap : gmap Z bytes) (event : A) :
  range_valid range ->
  (is_Ok (createCELR range recNum pcr digestsmap event) = true
   <-> map_Forall good_digest digestsmap)
  ∧ (forall hashAlgo hash,
       digestsmap !! hashAlgo = Some hash ->
       Hash_Size hashAlgo ≠ Ok (Z.of_nat (length hash)) ->
       is_Ok (createCELR range recNum pcr digestsmap event) = false)
  ∧ (forall celr,
       createCELR range recNum pcr digestsmap event = Ok celr ->
       RECNUM celr = createRecNumField recNum
       ∧ PCR celr = createPCRField pcr
       ∧ Type_ (Digests celr) = digestsTypeValue
       ∧ Content_ celr = GetTLV event)
  ∧ (digestsmap = ∅ ->
     createCELR range recNum pcr digestsmap event
     = Ok (mkRecord (createRecNumField recNum) (createPCRField pcr)
             (mkTLV digestsTypeValue []) (GetTLV event))).
Proof.
  intros Hrange.
  assert (is_Ok (createCELR range recNum pcr digestsmap event) = true
          <-> map_Forall good_digest digestsmap) as Hiff.
  { rewrite <- (createDigestField_Ok range) by assumption.
    unfold createCELR. now destruct (createDigestField range digestsmap). }
  split; [exact Hiff|]. split; [|split].
  - intros hashAlgo hash Hlookup Hsize.
    apply not_true_is_false. rewrite Hiff. intros Hall.
    destruct (Hall _ _ Hlookup) as [Hgood _]. contradiction.
  - unfold createCELR. intros celr.
    destruct (createDigestField range digestsmap) as [digestField| |] eqn:Hfield;
      cbn [rbind]; intros [= <-]. cbn [RECNUM PCR Digests Content_].
    repeat split. now apply createDigestField_Type in Hfield.
  - intros ->. unfold createCELR, createDigestField.
    now rewrite range_valid_empty.
Qed.

(** ** [AppendEvent] *)

Lemma createRecNumField_uint64 (n : Z) :
  createRecNumField (uint64 n) = createRecNumField n.
Proof. unfold createRecNumField, uint64. now rewrite PutUint64_mod. Qed.

(** What [createRecNumField] stores: eight bytes that denote the number
    (its low 64 bits), read back by [UnmarshalRecNum]. *)
Lemma createRecNumField_value (n : Z) :
  Type_ (createRecNumField n) = recnumTypeValue
  ∧ Value (createRecNumField n) = PutUint64 n
  ∧ length (Value (createRecNumField n)) = 8%nat
  ∧ big_endian_value (Value (createRecNumField n)) = n mod 2 ^ 64
  ∧ UnmarshalRecNum (createRecNumField n) = Ok (n mod 2 ^ 64).
Proof.
  repeat split.
  - apply big_endian_value_PutUint64.
  - unfold UnmarshalRecNum. cbn [createRecNumField Type_ Value].
    rewrite decide_False by (now intros Hne).
    rewrite decide_False by (now intros Hne).
    rewrite <- PutUint64_mod. apply Uint64_PutUint64.
    apply Z.mod_pos_bound. lia.
Qed.

(** A digest request that fails stops the first loop of [AppendEvent]. *)
Lemma AppendEvent_digests_failed {A} `{Content A} (hashAlgos : list Z)
    (event : A) :
  (exists hashAlgo, hashAlgo ∈ hashAlgos
     ∧ is_Ok (GenerateDigest event hashAlgo) = false) ->
  forall digestsMap,
    is_Ok (AppendEvent_digests hashAlgos event digestsMap) = false.
Proof.
  intros (hashAlgo & Hin & Hfail).
  induction hashAlgos as [|first rest IH]; intros digestsMap.
  - now apply elem_of_nil in Hin.
  - cbn [AppendEvent_digests].
    destruct (GenerateDigest event first) as [digest| |] eqn:Hfirst;
      cbn [rbind]; try reflexivity.
    apply elem_of_cons in Hin as [->|Hin]; [|now apply IH].
    rewrite Hfirst in Hfail. discriminate.
Qed.

(** The two ways [AppendEvent] ends: without a change to the log, or
    with one record added whose RECNUM is the number of records the log
    had, whatever the arguments. *)
Lemma AppendEvent_inv {A} `{Content A} (range : range_order) (c c' : CEL)
    (pcr : Z) (hashAlgos : list Z) (event : A) (r : result unit) :
  AppendEvent range c pcr hashAlgos event = (c', r) ->
  (is_Ok r = false ∧ c' = c)
  ∨ (r = Ok tt ∧ hashAlgos ≠ []
     ∧ exists celr, c' = mkCEL (Records c ++ [celr])
         ∧ RECNUM celr = createRecNumField (Z.of_nat (length (Records c)))
         ∧ PCR celr = createPCRField (uint8 pcr)
         ∧ Content_ celr = GetTLV event).
Proof.
  unfold AppendEvent. case_decide as Hempty.
  { intros [= <- <-]. now left. }
  destruct (AppendEvent_digests hashAlgos event ∅) as [digestsMap| |];
    [|intros [= <- <-]; now left ..].
  destruct (createCELR _ _ _ _ _) as [celr| |] eqn:Hcelr;
    [|intros [= <- <-]; now left ..].
  intros [= <- <-]. right. split; [reflexivity|].
  split; [now destruct hashAlgos|]. exists celr. split; [reflexivity|].
  unfold createCELR in Hcelr.
  destruct (createDigestField range digestsMap); cbn [rbind] in Hcelr;
    try discriminate.
  injection Hcelr as <-. cbn [RECNUM PCR Content_].
  now rewrite createRecNumField_uint64.
Qed.

(** C7. [AppendEvent] fails and leaves the log as it was when no hash
    algorithm is requested or when a digest request fails; when it
    succeeds the log is the old one with exactly one record added; and
    whenever it does not succeed the log is unchanged. *)
Theorem C7_AppendEvent_no_partial_mutation {A} `{Content A}
    (range : range_order) (c : CEL) (pcr : Z) (hashAlgos : list Z)
    (event : A) :
  (hashAlgos = [] ->
   AppendEvent range c pcr hashAlgos event = (c, Err ErrNoHashAlgo))
  ∧ ((exists hashAlgo, hashAlgo ∈ hashAlgos
        ∧ is_Ok (GenerateDigest event hashAlgo) = false) ->
     fst (AppendEvent range c pcr hashAlgos event) = c
     ∧ is_Ok (snd (AppendEvent range c pcr hashAlgos event)) = false)
  ∧ (snd (AppendEvent range c pcr hashAlgos event) = Ok tt ->
     exists celr,
       fst (AppendEvent range c pcr hashAlgos event)
       = mkCEL (Records c ++ [celr]))
  ∧ (snd (AppendEvent range c pcr hashAlgos event) ≠ Ok tt ->
     fst (AppendEvent range c pcr hashAlgos event) = c).
Proof.
  split; [|split; [|split]].
  - intros ->. reflexivity.
  - intros Hfail. unfold AppendEvent. case_decide; [now split|].
    pose proof (AppendEvent_digests_failed hashAlgos event Hfail ∅) as Hdigests.
    destruct (AppendEvent_digests hashAlgos event ∅); [discriminate| |]; now split.
  - destruct (AppendEvent range c pcr hashAlgos event) as [c' r] eqn:Happend.
    cbn [fst snd]. intros ->.
    apply AppendEvent_inv in Happend as [[[=] _]|(_ & _ & celr & -> & _)].
    now exists celr.
  - destruct (AppendEvent range c pcr hashAlgos event) as [c' r] eqn:Happend.
    cbn [fst snd]. intros Hr.
    now apply AppendEvent_inv in Happend as [[_ ->]|[-> _]].
Qed.

(** C2. In a log built from the empty one by [N] successful appends
    (failed calls in between change nothing), the record at position [i]
    has as RECNUM the type-0 TLV whose value is the eight bytes
    [PutUint64 i]: they denote [i] in base 256, most significant byte
    first, and [UnmarshalRecNum] reads [i] back (reduced modulo
    [2 ^ 64] in the model, where a list has no bound on its length; a Go
    slice has fewer than [2 ^ 63] elements).  The next successful append
    numbers its record [N] whatever its arguments are. *)
Theorem C2_recnum_is_position (N : nat) (c : CEL) :
  built N c ->
  length (Records c) = N
  ∧ (forall (i : nat) (celr : Record_),
       Records c !! i = Some celr ->
       (i < N)%nat
       ∧ Type_ (RECNUM celr) = recnumTypeValue
       ∧ Value (RECNUM celr) = PutUint64 (Z.of_nat i)
       ∧ length (Value (RECNUM celr)) = 8%nat
       ∧ big_endian_value (Value (RECNUM celr)) = Z.of_nat i mod 2 ^ 64
       ∧ UnmarshalRecNum (RECNUM celr) = Ok (Z.of_nat i mod 2 ^ 64)
       ∧ (Z.of_nat i < 2 ^ 64 ->
          UnmarshalRecNum (RECNUM celr) = Ok (Z.of_nat i)))
  ∧ (forall A (inst : Content A) range pcr hashAlgos (event : A) c',
       AppendEvent range c pcr hashAlgos event = (c', Ok tt) ->
       exists celr, Records c' = Records c ++ [celr]
         ∧ RECNUM celr = createRecNumField (Z.of_nat N)).
Proof.
  intros Hbuilt.
  assert (length (Records c) = N
          ∧ forall (i : nat) (celr : Record_),
              Records c !! i = Some celr ->
              (i < N)%nat ∧ RECNUM celr = createRecNumField (Z.of_nat i))
    as [Hlen Hnum].
  { induction Hbuilt as [|n c c' A inst range pcr hashAlgos event _ [IHlen IHnum] _ Happend
                         |n c c' r A inst range pcr hashAlgos event _ IH _ Happend Hr].
    - split; [reflexivity|]. intros i celr Hi. cbn [Records] in Hi. now rewrite lookup_nil in Hi.
    - apply AppendEvent_inv in Happend as [[[=] _]|(_ & _ & new & -> & Hnew & _)].
      cbn [Records]. split; [rewrite length_app; cbn; lia|].
      intros i celr Hi. apply lookup_app_Some in Hi as [Hi|[Hge Hi]].
      + destruct (IHnum _ _ Hi). split; [lia|assumption].
      + apply list_lookup_singleton_Some in Hi as [Hi <-].
        replace i with (length (Records c)) by lia.
        split; [lia|assumption].
    - apply AppendEvent_inv in Happend as [[_ ->]|[-> _]]; [exact IH|contradiction]. }
  split; [exact Hlen|]. split.
  - intros i celr Hi. destruct (Hnum _ _ Hi) as [Hlt ->].
    destruct (createRecNumField_value (Z.of_nat i))
      as (Htype & Hvalue & Hlength & Hdenotes & Hread).
    repeat (split; [assumption|]).
    intros Hsmall. rewrite Hread, Z.mod_small by lia. reflexivity.
  - intros A inst range pcr hashAlgos event c' Happend.
    apply AppendEvent_inv in Happend as [[[=] _]|(_ & _ & new & -> & Hnew & _)].
    exists new. split; [reflexivity|]. now rewrite <- Hlen.
Qed.


(** ** The order of the nested digests *)

Lemma short_permutations_eq {X} (l l1 l2 : list X) :
  (length l <= 1)%nat -> l1 ≡ₚ l -> l2 ≡ₚ l -> l1 = l2.
Proof.
  destruct l as [|x [|y l]]; cbn [length]; intros Hlen H1 H2; [| |lia].
  - apply Permutation_nil_r in H1, H2. congruence.
  - apply Permutation_singleton_r in H1, H2. congruence.
Qed.

(** The nested TLV of the entry visited first opens the DIGESTS value. *)
Lemma createDigestField_first_byte (range : range_order)
    (digestMap : gmap Z bytes) (hashAlgo alg : Z) (hash : bytes)
    (rest : list (Z * bytes)) (tlv : TLV) :
  range digestMap = (hashAlgo, hash) :: rest ->
  HashToAlgorithm hashAlgo = Ok alg ->
  createDigestField range digestMap = Ok tlv ->
  exists tail, Value tlv = uint8 alg :: tail.
Proof.
  intros Horder Halg. unfold createDigestField. rewrite Horder.
  destruct (createDigestField_loop_cons hashAlgo hash rest [])
    as [(_ & alg' & Halg' & ->)|[_ Hfail]].
  - rewrite Halg in Halg'. injection Halg' as <-.
    destruct (createDigestField_loop rest _) as [out| |] eqn:Hloop;
      cbn [rbind]; intros [= <-].
    apply createDigestField_loop_prefix in Hloop as [added ->].
    cbn [Value MarshalBinary Type_ app]. eauto.
  - destruct (createDigestField_loop _ _); [discriminate|discriminate ..].
Qed.

(** An iteration order that visits a chosen enumeration of one map. *)
Lemma range_order_through (digestMap : gmap Z bytes) (entries : list (Z * bytes)) :
  entries ≡ₚ map_to_list digestMap ->
  exists range, range_valid range ∧ range digestMap = entries.
Proof.
  intros Hperm.
  exists (fun m => if decide (m = digestMap) then entries else map_to_list m).
  split.
  - intros m. case_decide as Hm; [now subst m|reflexivity].
  - now rewrite decide_True.
Qed.

(** Two entries whose nested TLVs open with different bytes can be
    visited in either order, and the DIGESTS values then differ. *)
Lemma two_iteration_orders_differ (digestMap : gmap Z bytes)
    (h1 h2 : Z) (d1 d2 : bytes) (a1 a2 : Z) :
  h1 ≠ h2 ->
  digestMap !! h1 = Some d1 -> digestMap !! h2 = Some d2 ->
  map_Forall good_digest digestMap ->
  HashToAlgorithm h1 = Ok a1 -> HashToAlgorithm h2 = Ok a2 ->
  uint8 a1 ≠ uint8 a2 ->
  exists range1 range2 tlv1 tlv2,
    range_valid range1 ∧ range_valid range2
    ∧ createDigestField range1 digestMap = Ok tlv1
    ∧ createDigestField range2 digestMap = Ok tlv2
    ∧ Value tlv1 ≠ Value tlv2.
Proof.
  intros Hne Hd1 Hd2 Hgood Ha1 Ha2 Hbytes.
  set (rest := map_to_list (delete h2 (delete h1 digestMap))).
  assert ((h1, d1) :: (h2, d2) :: rest ≡ₚ map_to_list digestMap) as Hperm.
  { rewrite <- (map_to_list_delete digestMap h1 d1) by assumption.
    constructor. apply map_to_list_delete.
    now rewrite lookup_delete_ne. }
  destruct (range_order_through digestMap _ Hperm)
    as (range1 & Hvalid1 & Horder1).
  rewrite perm_swap in Hperm.
  destruct (range_order_through digestMap _ Hperm)
    as (range2 & Hvalid2 & Horder2).
  pose proof (proj2 (createDigestField_Ok range1 digestMap Hvalid1) Hgood) as Hok1.
  pose proof (proj2 (createDigestField_Ok range2 digestMap Hvalid2) Hgood) as Hok2.
  apply is_Ok_true in Hok1 as [tlv1 Htlv1].
  apply is_Ok_true in Hok2 as [tlv2 Htlv2].
  exists range1, range2, tlv1, tlv2. repeat (split; [assumption|]).
  destruct (createDigestField_first_byte _ _ _ _ _ _ _ Horder1 Ha1 Htlv1)
    as [tail1 ->].
  destruct (createDigestField_first_byte _ _ _ _ _ _ _ Horder2 Ha2 Htlv2)
    as [tail2 ->].
  congruence.
Qed.

(** C10. With at most one algorithm in the map every iteration order
    gives the same DIGESTS field.  With two algorithms whose identifiers
    differ in their low byte (and digests that pass the size check) there
    are two iteration orders for which [createDigestField] returns
    different bytes: the nested TLVs follow the order of the iteration. *)
Theorem C10_digest_order_follows_map_iteration (digestMap : gmap Z bytes) :
  ((size digestMap <= 1)%nat ->
   forall range1 range2,
     range_valid range1 -> range_valid range2 ->
     createDigestField range1 digestMap = createDigestField range2 digestMap)
  ∧ (forall h1 h2 d1 d2 a1 a2,
       h1 ≠ h2 ->
       digestMap !! h1 = Some d1 -> digestMap !! h2 = Some d2 ->
       map_Forall good_digest digestMap ->
       HashToAlgorithm h1 = Ok a1 -> HashToAlgorithm h2 = Ok a2 ->
       uint8 a1 ≠ uint8 a2 ->
       exists range1 range2 tlv1 tlv2,
         range_valid range1 ∧ range_valid range2
         ∧ createDigestField range1 digestMap = Ok tlv1
         ∧ createDigestField range2 digestMap = Ok tlv2
         ∧ Value tlv1 ≠ Value tlv2).
Proof.
  split.
  - intros Hsize range1 range2 Hvalid1 Hvalid2.
    unfold createDigestField.
    rewrite (short_permutations_eq (map_to_list digestMap)
               (range1 digestMap) (range2 digestMap));
      [reflexivity|now rewrite length_map_to_list|apply Hvalid1|apply Hvalid2].
  - apply two_iteration_orders_differ.
Qed.

(** ** [UnmarshalDigests] *)

(** The fuel given to the loop is enough: every iteration consumes at
    least the five bytes of a TLV header. *)
Lemma UnmarshalDigests_loop_total (fuel : nat) :
  forall (buf : bytes) (digestsMap : gmap Z bytes),
    (length buf <= fuel)%nat ->
    UnmarshalDigests_loop fuel buf digestsMap ≠ None.
Proof.
  induction fuel as [|fuel IH]; intros buf digestsMap Hfuel.
  - destruct buf; [cbn; discriminate|cbn in Hfuel; lia].
  - cbn [UnmarshalDigests_loop]. case_decide; [|discriminate].
    destruct (UnmarshalFirstTLV buf) as [[digestTLV|e|] buf'] eqn:Hread;
      [|destruct e; discriminate|discriminate].
    apply UnmarshalFirstTLV_Ok_inv in Hread as [-> _].
    destruct (Algorithm_Hash _); [|discriminate ..].
    apply IH. rewrite length_app, MarshalBinary_length in Hfuel. lia.
Qed.

Lemma UnmarshalDigests_total (tlv : TLV) : UnmarshalDigests tlv ≠ None.
Proof.
  unfold UnmarshalDigests. case_decide; [discriminate|].
  now apply UnmarshalDigests_loop_total.
Qed.

(** A nested TLV with a known algorithm is taken into the map whatever
    the length of its value: the loop makes no size check. *)
Lemma UnmarshalDigests_single (digestTLV : TLV) (hashAlg : Z) :
  valid_TLV digestTLV ->
  Algorithm_Hash (Z_of_byte (Type_ digestTLV)) = Ok hashAlg ->
  UnmarshalDigests (mkTLV digestsTypeValue (MarshalBinary digestTLV))
  = Some (Ok {[hashAlg := Value digestTLV]}).
Proof.
  intros Hvalid Halg. unfold UnmarshalDigests. cbn [Type_ Value].
  rewrite decide_False by (now intros Hne).
  rewrite MarshalBinary_length. cbn [Nat.add UnmarshalDigests_loop].
  rewrite decide_True by (unfold Buffer_Len; rewrite MarshalBinary_length; lia).
  rewrite <- (app_nil_r (MarshalBinary digestTLV)).
  rewrite UnmarshalFirstTLV_MarshalBinary by assumption.
  rewrite Halg. destruct (length (Value digestTLV)); reflexivity.
Qed.

(** An unknown algorithm identifier is an error. *)
Lemma UnmarshalDigests_unknown (digestTLV : TLV) (rest : bytes) (e : error) :
  valid_TLV digestTLV ->
  Algorithm_Hash (Z_of_byte (Type_ digestTLV)) = Err e ->
  UnmarshalDigests (mkTLV digestsTypeValue (MarshalBinary digestTLV ++ rest))
  = Some (Err e).
Proof.
  intros Hvalid Halg. unfold UnmarshalDigests. cbn [Type_ Value].
  rewrite decide_False by (now intros Hne).
  rewrite length_app, MarshalBinary_length. cbn [Nat.add UnmarshalDigests_loop].
  rewrite decide_True
    by (unfold Buffer_Len; rewrite length_app, MarshalBinary_length; lia).
  rewrite UnmarshalFirstTLV_MarshalBinary by assumption.
  now rewrite Halg.
Qed.

End PackageProperties.

(** ** The package on concrete inputs *)

Lemma range_valid_enumerated : range_valid GoLib.enumerated.
Proof. intros m. reflexivity. Qed.

Lemma range_valid_reversed : range_valid GoLib.reversed.
Proof. intros m. apply reverse_Permutation. Qed.

Lemma good_sample_digests : map_Forall good_digest sample_digests.
Proof.
  unfold sample_digests.
  repeat (apply map_Forall_insert_2; [split; reflexivity|]).
  apply map_Forall_empty.
Qed.

(** C5, the claim as stated fails: an empty digest map is accepted,
    and the record has an empty DIGESTS value. *)
Lemma C5_empty_digest_map_accepted :
  createCELR GoLib.enumerated 0 x07 ∅ sample_event
  = Ok (mkRecord (createRecNumField 0) (createPCRField x07)
          (mkTLV digestsTypeValue []) (content_tlv sample_event)).
Proof. reflexivity. Qed.

(** C5 on the sample digests, and on the same map with a one-byte
    SHA-1 digest. *)
Lemma C5_createCELR_witness :
  is_Ok (createCELR GoLib.enumerated 1 x07 sample_digests sample_event) = true
  ∧ is_Ok (createCELR GoLib.enumerated 1 x07
             (<[GoLib.SHA1 := [xaa]]> sample_digests) sample_event) = false.
Proof.
  split.
  - apply (proj1 (C5_createCELR_checks_digest_sizes GoLib.enumerated 1 x07
                    sample_digests sample_event range_valid_enumerated)).
    apply good_sample_digests.
  - apply (proj1 (proj2 (C5_createCELR_checks_digest_sizes GoLib.enumerated 1 x07
                    (<[GoLib.SHA1 := [xaa]]> sample_digests) sample_event
                    range_valid_enumerated)) GoLib.SHA1 [xaa]).
    + reflexivity.
    + discriminate.
Defined.

(** C6, the code at the failing input: a DIGESTS value holding one
    nested TLV, SHA-256 by its identifier, with a value of one byte.
    [crypto.SHA256.Size()] is 32, and the one-byte digest is returned in
    the map with a nil error. *)
Theorem C6_wrong_size_digest_accepted :
  GoLib.Size GoLib.SHA256 = Ok 32
  ∧ UnmarshalDigests (mkTLV x03 [x0b; x00; x00; x00; x01; xaa])
    = Some (Ok {[GoLib.SHA256 := [xaa]]})
  ∧ is_Ok (createDigestField GoLib.enumerated {[GoLib.SHA256 := [xaa]]}) = false.
Proof. repeat split. Qed.

(** C7 on a log of one record: no algorithm, a failing digest request,
    and a successful append. *)
Lemma C7_AppendEvent_witness :
  AppendEvent GoLib.enumerated sample_log_1 7 [] sample_event
  = (sample_log_1, Err ErrNoHashAlgo)
  ∧ (fst (AppendEvent GoLib.enumerated sample_log_1 7 [GoLib.SHA1; 25] sample_event)
     = sample_log_1
     ∧ is_Ok (snd (AppendEvent GoLib.enumerated sample_log_1 7 [GoLib.SHA1; 25]
                     sample_event)) = false)
  ∧ exists celr,
      fst (AppendEvent GoLib.reversed sample_log_1 23 [GoLib.SHA256; GoLib.SHA1]
             sample_event)
      = mkCEL (Records sample_log_1 ++ [celr]).
Proof.
  split; [|split].
  - apply (proj1 (C7_AppendEvent_no_partial_mutation GoLib.enumerated
                    sample_log_1 7 [] sample_event)).
    reflexivity.
  - apply (proj1 (proj2 (C7_AppendEvent_no_partial_mutation GoLib.enumerated
                    sample_log_1 7 [GoLib.SHA1; 25] sample_event))).
    exists 25. split; [|reflexivity].
    apply elem_of_cons. right. apply elem_of_cons. now left.
  - apply (proj1 (proj2 (proj2 (C7_AppendEvent_no_partial_mutation GoLib.reversed
                    sample_log_1 23 [GoLib.SHA256; GoLib.SHA1] sample_event)))).
    reflexivity.
Defined.

(** The second sample log is built by two successful appends with a
    failed one in between. *)
Lemma built_sample_log_2 : built 2 sample_log_2.
Proof.
  apply (built_append 1 sample_log_1 sample_log_2 _ _ GoLib.reversed 23
           [GoLib.SHA256; GoLib.SHA1] sample_event);
    [|apply range_valid_reversed|reflexivity].
  apply (built_failed 1 sample_log_1 sample_log_1 (Err ErrNoHashAlgo) _ _
           GoLib.enumerated 7 [] sample_event);
    [|apply range_valid_enumerated|reflexivity|discriminate].
  apply (built_append 0 (mkCEL []) sample_log_1 _ _ GoLib.enumerated 7
           [GoLib.SHA1] sample_event);
    [|apply range_valid_enumerated|reflexivity].
  apply built_empty.
Qed.

(** C2 on the second sample log. *)
Lemma C2_recnum_witness :
  length (Records sample_log_2) = 2%nat
  ∧ forall (i : nat) (celr : Record_),
      Records sample_log_2 !! i = Some celr ->
      Value (RECNUM celr) = PutUint64 (Z.of_nat i)
      ∧ UnmarshalRecNum (RECNUM celr) = Ok (Z.of_nat i mod 2 ^ 64).
Proof.
  destruct (C2_recnum_is_position 2 sample_log_2 built_sample_log_2)
    as (Hlen & Hnum & _).
  split; [exact Hlen|]. intros i celr Hi.
  destruct (Hnum i celr Hi) as (_ & _ & Hvalue & _ & _ & Hread & _).
  split; assumption.
Defined.

(** The two orders on the sample map, run. *)
Example digest_orders_differ :
  createDigestField GoLib.enumerated sample_digests
  ≠ createDigestField GoLib.reversed sample_digests.
Proof. discriminate. Qed.

(** C10 on a map with SHA-1 alone and on the sample digests. *)
Lemma C10_digest_order_witness :
  (forall range1 range2,
     range_valid range1 -> range_valid range2 ->
     createDigestField range1 {[GoLib.SHA1 := repeat xaa 20]}
     = createDigestField range2 {[GoLib.SHA1 := repeat xaa 20]})
  ∧ exists range1 range2 tlv1 tlv2,
      range_valid range1 ∧ range_valid range2
      ∧ createDigestField range1 sample_digests = Ok tlv1
      ∧ createDigestField range2 sample_digests = Ok tlv2
      ∧ Value tlv1 ≠ Value tlv2.
Proof.
  split.
  - apply (proj1 (C10_digest_order_follows_map_iteration
                    {[GoLib.SHA1 := repeat xaa 20]})).
    rewrite map_size_singleton. lia.
  - apply (proj2 (C10_digest_order_follows_map_iteration sample_digests)
             GoLib.SHA1 GoLib.SHA256 (repeat xaa 20) (repeat xbb 32)
             GoLib.AlgSHA1 GoLib.AlgSHA256).
    + discriminate.
    + reflexivity.
    + reflexivity.
    + apply good_sample_digests.
    + reflexivity.
    + reflexivity.
    + discriminate.
Defined.

(** ** The register chain *)

Lemma write_at_length (arr : bytes) (index : nat) (data : bytes) :
  (index + length data <= length arr)%nat ->
  length (write_at arr index data) = length arr.
Proof.
  intros Hfit. unfold write_at.
  rewrite !length_app, length_take, length_drop. lia.
Qed.

Lemma write_at_lookup (arr : bytes) (index : nat) (data : bytes) (i : nat) :
  (index + length data <= length arr)%nat ->
  write_at arr index data !! i
  = if decide (index <= i < index + length data)%nat
    then data !! (i - index)%nat else arr !! i.
Proof.
  intros Hfit. unfold write_at.
  destruct (decide (i < index)%nat) as [Hlow|Hlow].
  - rewrite lookup_app_l by (rewrite length_take; lia).
    rewrite lookup_take_lt by lia. case_decide; [lia|reflexivity].
  - rewrite lookup_app_r by (rewrite length_take; lia).
    rewrite length_take, Nat.min_l by lia.
    destruct (decide (i < index + length data)%nat) as [Hin|Hin].
    + rewrite lookup_app_l by lia. case_decide; [reflexivity|lia].
    + rewrite lookup_app_r by lia. rewrite lookup_drop.
      case_decide; [lia|]. f_equal. lia.
Qed.

Lemma contents_lookup (mem : Memory) (s : SliceHeader) (i : nat) :
  contents mem s !! i
  = if decide (i < Len s)%nat
    then default [] (mem !! Array s) !! (Offset s + i)%nat else None.
Proof.
  unfold contents. case_decide.
  - rewrite lookup_take_lt by lia. apply lookup_drop.
  - apply lookup_take_ge. lia.
Qed.

Lemma contents_length (mem : Memory) (s : SliceHeader) :
  valid_slice mem s -> length (contents mem s) = Len s.
Proof.
  intros (arr & Harr & Hlen & Hcap). unfold contents.
  rewrite Harr, length_take, length_drop. cbn. lia.
Qed.

Lemma valid_slice_app (mem extra : Memory) (s : SliceHeader) :
  valid_slice mem s -> valid_slice (mem ++ extra) s.
Proof.
  intros (arr & Harr & Hlen & Hcap). exists arr.
  split; [|split; assumption]. now apply lookup_app_l_Some.
Qed.

Lemma contents_app (mem extra : Memory) (s : SliceHeader) :
  valid_slice mem s -> contents (mem ++ extra) s = contents mem s.
Proof.
  intros (arr & Harr & _). unfold contents.
  now rewrite (lookup_app_l_Some _ _ _ _ Harr), Harr.
Qed.

Section ChainProperties.
Variable Sum256 : bytes -> bytes.
Variable growslice : nat -> nat -> nat.

Lemma extend_chain_cons (base extension : bytes) (rest : list bytes)
    (digest : bytes) :
  extend_chain Sum256 (Sum256 (base ++ extension)) rest digest ->
  extend_chain Sum256 base (extension :: rest) digest.
Proof.
  induction 1 as [|rest current last _ IH].
  - apply (chain_extend Sum256 base [] base extension). constructor.
  - apply (chain_extend Sum256 base (extension :: rest) current last IH).
Qed.

Lemma extend_chain_unique (base : bytes) (extensions : list bytes)
    (digest digest' : bytes) :
  extend_chain Sum256 base extensions digest ->
  extend_chain Sum256 base extensions digest' ->
  digest = digest'.
Proof.
  intros Hchain. revert digest'.
  induction Hchain as [|extensions current extension _ IH]; intros digest' Hchain'.
  - inversion Hchain' as [|extensions' current' extension' _ Heq]; [reflexivity|].
    now destruct extensions'.
  - inversion Hchain' as [Heq|extensions' current' extension' Hbefore Heq].
    + now destruct extensions.
    + apply app_inj_tail in Heq as [-> ->]. now rewrite (IH _ Hbefore).
Qed.

(** What [append] returns holds the elements of both slices, as they
    were before the call. *)
Lemma append_contents (mem : Memory) (s extension : SliceHeader) :
  valid_slice mem s -> valid_slice mem extension ->
  contents (snd (append growslice mem s extension))
    (fst (append growslice mem s extension))
  = contents mem s ++ contents mem extension.
Proof.
  intros Hs Hext. pose proof (contents_length _ _ Hs) as Hlen.
  pose proof (contents_length _ _ Hext) as Hlen'.
  destruct Hs as (arr & Harr & Hle & Hcap). unfold append.
  case_decide as Hfit; cbn [fst snd allocate].
  - apply list_eq. intros i. rewrite contents_lookup. cbn [Len Array Offset].
    rewrite list_lookup_alter.
    destruct (decide (Array s = Array s)) as [_|Hne]; [|now destruct Hne].
    rewrite Harr.
    cbn [fmap option_fmap option_map default from_option]. unfold id.
    rewrite write_at_lookup by lia.
    destruct (decide (i < Len s)%nat) as [Hi|Hi].
    + rewrite lookup_app_l by lia. rewrite (contents_lookup mem s), Harr.
      repeat case_decide; try lia. reflexivity.
    + rewrite lookup_app_r by lia. rewrite Hlen.
      repeat case_decide; try lia.
      * f_equal. lia.
      * symmetry. apply lookup_ge_None. lia.
  - unfold contents at 1. cbn [Len Array Offset].
    rewrite lookup_app_r by lia. rewrite Nat.sub_diag.
    cbn [lookup list_lookup default from_option drop]. unfold id.
    rewrite drop_0, app_assoc, take_app_length'; [reflexivity|].
    rewrite length_app. lia.
Qed.

(** The memory [append] leaves: one array written in place, or a new
    array behind the others. *)
Lemma append_memory (mem : Memory) (s extension : SliceHeader) :
  valid_slice mem s -> valid_slice mem extension ->
  (Len s + Len extension <= Cap s)%nat
  ∧ snd (append growslice mem s extension)
    = alter (fun arr => write_at arr (Offset s + Len s) (contents mem extension))
        (Array s) mem
  ∨ (Cap s < Len s + Len extension)%nat
    ∧ exists arr, snd (append growslice mem s extension) = mem ++ [arr].
Proof.
  intros _ _. unfold append. case_decide.
  - left. now split.
  - right. split; [lia|]. now eexists.
Qed.

Lemma append_in_place_nothing (mem : Memory) (s extension : SliceHeader) :
  valid_slice mem extension -> Len extension = 0%nat ->
  alter (fun arr => write_at arr (Offset s + Len s) (contents mem extension))
    (Array s) mem = mem.
Proof.
  intros Hext Hnone. pose proof (contents_length _ _ Hext) as Hlen.
  rewrite Hnone in Hlen. apply length_zero_iff_nil in Hlen. rewrite Hlen.
  apply list_eq. intros i. rewrite list_lookup_alter.
  case_decide as Hi; [|reflexivity]. subst i.
  destruct (mem !! Array s) as [arr|]; [|reflexivity]. cbn.
  unfold write_at. cbn. now rewrite Nat.add_0_r, take_drop.
Qed.

Lemma valid_slice_written (mem : Memory) (base extension s : SliceHeader) :
  valid_slice mem base -> valid_slice mem extension ->
  (Len base + Len extension <= Cap base)%nat ->
  valid_slice mem s ->
  valid_slice
    (alter (fun arr => write_at arr (Offset base + Len base)
                         (contents mem extension)) (Array base) mem) s.
Proof.
  intros (arr & Harr & Hle & Hcap) Hext Hfit (arr' & Harr' & Hle' & Hcap').
  pose proof (contents_length _ _ Hext) as Hlen.
  destruct (decide (Array base = Array s)) as [Hsame|Hother].
  - exists (write_at arr (Offset base + Len base) (contents mem extension)).
    rewrite list_lookup_alter, decide_True, Harr by assumption.
    split; [reflexivity|]. split; [assumption|].
    rewrite write_at_length by lia. rewrite Hsame in Harr. congruence.
  - exists arr'. now rewrite list_lookup_alter_ne.
Qed.

Lemma contents_apart (mem : Memory) (base extension later : SliceHeader) :
  valid_slice mem base -> valid_slice mem extension ->
  (Len base + Len extension <= Cap base)%nat ->
  apart base extension later ->
  contents
    (alter (fun arr => write_at arr (Offset base + Len base)
                         (contents mem extension)) (Array base) mem) later
  = contents mem later.
Proof.
  intros (arr & Harr & Hle & Hcap) Hext Hfit Hapart.
  pose proof (contents_length _ _ Hext) as Hlen.
  destruct (decide (Array base = Array later)) as [Hsame|Hother].
  - destruct Hapart as [Hne|Hapart]; [now destruct Hne|].
    apply list_eq. intros i. rewrite !contents_lookup.
    case_decide as Hi; [|reflexivity].
    rewrite list_lookup_alter, decide_True, <- Hsame, Harr by assumption.
    cbn [fmap option_fmap option_map default from_option]. unfold id.
    rewrite write_at_lookup by lia. case_decide; [lia|reflexivity].
  - unfold contents. now rewrite list_lookup_alter_ne.
Qed.

Lemma computePCRValue_cons (mem : Memory) (base extension : SliceHeader)
    (rest : list SliceHeader) :
  computePCRValue Sum256 growslice mem base (extension :: rest)
  = let mem1 := snd (append growslice mem base extension) in
    let digest :=
      Sum256 (contents mem1 (fst (append growslice mem base extension))) in
    computePCRValue Sum256 growslice (mem1 ++ [digest])
      (mkSliceHeader (length mem1) 0 (length digest) (length digest)) rest.
Proof.
  cbn [computePCRValue]. now destruct (append growslice mem base extension).
Qed.

(** A slice without spare capacity is extended without a write to any
    array that was there before. *)
Lemma computePCRValue_full (extensions : list SliceHeader) :
  forall (mem : Memory) (base : SliceHeader),
    Len base = Cap base ->
    valid_slice mem base -> Forall (valid_slice mem) extensions ->
    exists extra,
      snd (computePCRValue Sum256 growslice mem base extensions) = mem ++ extra
      ∧ extend_chain Sum256 (contents mem base) (map (contents mem) extensions)
          (contents (mem ++ extra)
             (fst (computePCRValue Sum256 growslice mem base extensions))).
Proof.
  induction extensions as [|extension rest IH]; intros mem base Hfull Hbase Hexts.
  - exists []. cbn. rewrite app_nil_r. split; [reflexivity|constructor].
  - apply Forall_cons in Hexts as [Hext Hrest].
    rewrite computePCRValue_cons. cbn zeta.
    pose proof (append_contents mem base extension Hbase Hext) as Hcontents.
    assert (exists grown, snd (append growslice mem base extension) = mem ++ grown)
      as [grown Hgrown].
    { destruct (append_memory mem base extension Hbase Hext)
        as [[Hfit ->]|[_ [arr ->]]]; [|now eexists].
      exists []. rewrite app_nil_r. apply append_in_place_nothing; [assumption|lia]. }
    rewrite Hcontents, Hgrown.
    set (digest := Sum256 (contents mem base ++ contents mem extension)).
    set (sum := mkSliceHeader (length (mem ++ grown)) 0 (length digest)
                  (length digest)).
    assert (valid_slice ((mem ++ grown) ++ [digest]) sum) as Hsum.
    { exists digest. split; [|split; cbn; lia].
      cbn [Array sum]. rewrite lookup_app_r by lia.
      now rewrite Nat.sub_diag. }
    assert (contents ((mem ++ grown) ++ [digest]) sum = digest) as Hdigest.
    { unfold contents. cbn [Array Offset Len sum].
      rewrite lookup_app_r by lia. rewrite Nat.sub_diag. cbn.
      now rewrite drop_0, firstn_all. }
    assert (Forall (valid_slice ((mem ++ grown) ++ [digest])) rest) as Hrest'.
    { eapply Forall_impl; [exact Hrest|]. intros s Hs.
      now apply valid_slice_app, valid_slice_app. }
    destruct (IH _ sum eq_refl Hsum Hrest') as (extra & Hmem & Hchain).
    exists (grown ++ [digest] ++ extra). split.
    + rewrite Hmem. now rewrite <- !app_assoc.
    + rewrite Hdigest in Hchain. apply extend_chain_cons.
      replace (mem ++ grown ++ [digest] ++ extra)
        with (((mem ++ grown) ++ [digest]) ++ extra)
        by now rewrite <- !app_assoc.
      assert (map (contents ((mem ++ grown) ++ [digest])) rest
              = map (contents mem) rest) as Hsame.
      { apply map_ext_Forall. eapply Forall_impl; [exact Hrest|].
        intros s Hs. cbn beta. rewrite <- app_assoc. now apply contents_app. }
      rewrite Hsame in Hchain. exact Hchain.
Qed.

(** The first round of [computePCRValue]: the one [append] that can
    write into the caller's memory.  The extensions behind the first are
    read in the memory that this [append] leaves. *)
Lemma computePCRValue_first (mem : Memory) (base extension : SliceHeader)
    (rest : list SliceHeader) :
  valid_slice mem base -> Forall (valid_slice mem) (extension :: rest) ->
  let mem1 := snd (append growslice mem base extension) in
  exists extra,
    snd (computePCRValue Sum256 growslice mem base (extension :: rest))
    = mem1 ++ extra
    ∧ Forall (valid_slice mem1) rest
    ∧ extend_chain Sum256
        (Sum256 (contents mem base ++ contents mem extension))
        (map (contents mem1) rest)
        (contents (mem1 ++ extra)
           (fst (computePCRValue Sum256 growslice mem base (extension :: rest)))).
Proof.
  intros Hbase Hexts mem1. apply Forall_cons in Hexts as [Hext Hrest].
  rewrite computePCRValue_cons. cbn zeta. fold mem1.
  pose proof (append_contents mem base extension Hbase Hext) as Hcontents.
  fold mem1 in Hcontents. rewrite Hcontents.
  set (digest := Sum256 (contents mem base ++ contents mem extension)).
  set (sum := mkSliceHeader (length mem1) 0 (length digest) (length digest)).
  assert (Forall (valid_slice mem1) rest) as Hrest1.
  { subst mem1. eapply Forall_impl; [exact Hrest|]. intros s Hs.
    destruct (append_memory mem base extension Hbase Hext)
      as [[Hfit ->]|[_ [arr ->]]].
    - now apply valid_slice_written.
    - now apply valid_slice_app. }
  assert (valid_slice (mem1 ++ [digest]) sum) as Hsum.
  { exists digest. split; [|split; cbn; lia].
    cbn [Array sum]. rewrite lookup_app_r by lia. now rewrite Nat.sub_diag. }
  assert (contents (mem1 ++ [digest]) sum = digest) as Hdigest.
  { unfold contents. cbn [Array Offset Len sum].
    rewrite lookup_app_r by lia. rewrite Nat.sub_diag. cbn.
    now rewrite drop_0, firstn_all. }
  assert (Forall (valid_slice (mem1 ++ [digest])) rest) as Hrest'.
  { eapply Forall_impl; [exact Hrest1|]. intros s Hs. now apply valid_slice_app. }
  destruct (computePCRValue_full rest _ sum eq_refl Hsum Hrest')
    as (extra & Hmem & Hchain).
  exists ([digest] ++ extra). split; [|split].
  - rewrite Hmem. now rewrite <- app_assoc.
  - exact Hrest1.
  - rewrite Hdigest in Hchain. rewrite app_assoc.
    assert (map (contents (mem1 ++ [digest])) rest = map (contents mem1) rest)
      as Hsame.
    { apply map_ext_Forall. eapply Forall_impl; [exact Hrest1|].
      intros s Hs. cbn beta. now apply contents_app. }
    rewrite Hsame in Hchain. exact Hchain.
Qed.

(** C8, amended. [computePCRValue] returns the base slice and leaves
    the memory as it was for no extension.  For a base and extensions
    that the memory backs, [append] writes the first extension into the
    array of the base, right behind the base, when the capacity of the
    base has room for it, and nothing else of what was in memory
    changes.  When the base has no such room, or no extension behind the
    first shares a byte with the part written, the slice returned holds
    the one and only digest that the extend chain of the spec reaches
    from the elements of the base through the elements of the
    extensions in order. *)
Theorem C8_computePCRValue_is_extend_chain (mem : Memory)
    (base extension : SliceHeader) (rest : list SliceHeader) :
  valid_slice mem base ->
  Forall (valid_slice mem) (extension :: rest) ->
  let result := computePCRValue Sum256 growslice mem base (extension :: rest) in
  computePCRValue Sum256 growslice mem base [] = (base, mem)
  ∧ ((Cap base < Len base + Len extension)%nat
     ∨ Forall (apart base extension) rest ->
     forall digest,
       extend_chain Sum256 (contents mem base)
         (map (contents mem) (extension :: rest)) digest
       <-> digest = contents (snd result) (fst result))
  ∧ (forall address arr,
       mem !! address = Some arr ->
       snd result !! address
       = Some (if decide (address = Array base
                          ∧ (Len base + Len extension <= Cap base)%nat)
               then write_at arr (Offset base + Len base)
                      (contents mem extension)
               else arr)).
Proof.
  intros Hbase Hexts result.
  destruct (computePCRValue_first mem base extension rest Hbase Hexts)
    as (extra & Hmem & Hrest1 & Hchain).
  apply Forall_cons in Hexts as [Hext Hrest].
  fold result in Hmem, Hchain. rewrite <- Hmem in Hchain.
  split; [reflexivity|]. split.
  - intros Hclear.
    assert (map (contents (snd (append growslice mem base extension))) rest
            = map (contents mem) rest) as Hsame.
    { apply map_ext_Forall.
      destruct (append_memory mem base extension Hbase Hext)
        as [[Hfit ->]|[_ [arr ->]]].
      - destruct Hclear as [Hgrow|Hapart]; [lia|].
        eapply Forall_impl; [exact Hapart|]. intros s Hs. cbn beta.
        now apply contents_apart.
      - eapply Forall_impl; [exact Hrest|]. intros s Hs. cbn beta.
        now apply contents_app. }
    rewrite Hsame in Hchain. apply extend_chain_cons in Hchain.
    intros digest. split.
    + intros Hdigest. exact (extend_chain_unique _ _ _ _ Hdigest Hchain).
    + intros ->. exact Hchain.
  - intros address arr Haddress. rewrite Hmem.
    destruct (append_memory mem base extension Hbase Hext)
      as [[Hfit ->]|[Hgrow [grown ->]]].
    + erewrite lookup_app_l_Some; [reflexivity|].
      rewrite list_lookup_alter.
      destruct (decide (Array base = address)) as [<-|Hother].
      * rewrite Haddress, decide_True by (split; [reflexivity|assumption]).
        reflexivity.
      * rewrite Haddress, decide_False; [reflexivity|].
        intros [-> _]. now destruct Hother.
    + rewrite decide_False by lia. rewrite <- app_assoc.
      now apply lookup_app_l_Some.
Qed.

End ChainProperties.

(** C8 on a base with room for two more bytes and two extensions in
    arrays of their own. *)
Lemma C8_computePCRValue_witness :
  let mem := [[x01; x00; x00]; [x0a]; [x0b]] in
  let base := mkSliceHeader 0 0 1 3 in
  let extension := mkSliceHeader 1 0 1 1 in
  let rest := [mkSliceHeader 2 0 1 1] in
  let result :=
    computePCRValue sample_hash sample_growslice mem base (extension :: rest) in
  valid_slice mem base
  ∧ Forall (valid_slice mem) (extension :: rest)
  ∧ Forall (apart base extension) rest
  ∧ extend_chain sample_hash [x01] [[x0a]; [x0b]]
      (contents (snd result) (fst result))
  ∧ snd result !! 0%nat = Some [x01; x0a; x00]
  ∧ snd result !! 1%nat = Some [x0a].
Proof.
  intros mem base extension rest result.
  assert (valid_slice mem base) as Hbase.
  { exists [x01; x00; x00]. cbn. repeat split; lia. }
  assert (Forall (valid_slice mem) (extension :: rest)) as Hexts.
  { constructor; [|constructor; [|constructor]].
    - exists [x0a]. cbn. repeat split; lia.
    - exists [x0b]. cbn. repeat split; lia. }
  assert (Forall (apart base extension) rest) as Hapart.
  { constructor; [|constructor]. left. cbn. lia. }
  destruct (C8_computePCRValue_is_extend_chain sample_hash sample_growslice
              mem base extension rest Hbase Hexts)
    as (_ & Hvalue & Hframe).
  split; [exact Hbase|]. split; [exact Hexts|]. split; [exact Hapart|].
  split; [|split].
  - apply (Hvalue (or_intror Hapart)). reflexivity.
  - exact (Hframe 0%nat [x01; x00; x00] eq_refl).
  - exact (Hframe 1%nat [x0a] eq_refl).
Defined.

(** C8, the claim as stated fails: on a base with spare capacity that
    the second extension shares, [arr = {1, 2, 3}], [base = arr[0:1]],
    [extensions = {arr[2:3], arr[1:2]}], the first [append] stores [3]
    in [arr[1]], the caller's array is left as [{1, 3, 3}], and the
    second extension is read after the write: the digest returned is
    not the one the chain reaches through [{3}] and [{2}]. *)
Lemma C8_append_writes_behind_base :
  let mem := [[x01; x02; x03]] in
  let base := mkSliceHeader 0 0 1 3 in
  let extensions := [mkSliceHeader 0 2 1 1; mkSliceHeader 0 1 1 2] in
  let result :=
    computePCRValue sample_hash sample_growslice mem base extensions in
  valid_slice mem base
  ∧ Forall (valid_slice mem) extensions
  ∧ map (contents mem) extensions = [[x03]; [x02]]
  ∧ snd result !! 0%nat = Some [x01; x03; x03]
  ∧ contents (snd result) (fst result)
    = sample_hash (sample_hash [x01; x03] ++ [x03])
  ∧ ¬ extend_chain sample_hash (contents mem base)
        (map (contents mem) extensions)
        (contents (snd result) (fst result)).
Proof.
  intros mem base extensions result.
  split; [|split; [|split; [|split; [|split]]]].
  - exists [x01; x02; x03]. cbn. repeat split; lia.
  - constructor; [|constructor; [|constructor]].
    + exists [x01; x02; x03]. cbn. repeat split; lia.
    + exists [x01; x02; x03]. cbn. repeat split; lia.
  - reflexivity.
  - reflexivity.
  - reflexivity.
  - intros Hchain.
    assert (extend_chain sample_hash [x01] [[x03]; [x02]]
              (sample_hash (sample_hash [x01; x03] ++ [x02]))) as Hspec.
    { exact (chain_extend sample_hash [x01] [[x03]]
               (sample_hash ([x01] ++ [x03])) [x02]
               (chain_extend sample_hash [x01] [] [x01] [x03]
                  (chain_start sample_hash [x01]))). }
    pose proof (extend_chain_unique sample_hash _ _ _ _ Hchain Hspec) as Heq.
    vm_compute in Heq. discriminate Heq.
Qed.

(** ** [Seal] and [Unseal] *)

Section SealingProperties.
Import Sealing.
Variable H : bytes -> bytes.
Variable H_algorithm : Z.
Variable H_size : nat.
Variable policy_command_identifier : bytes.
Variable selection_structure_encoding : Selection -> bytes.

(** Reading registers that the hardware holds returns their live
    values. *)
Lemma read_registers_live (hw : Hardware) (indices : list Z) (algorithm : Z) :
  (forall i, i ∈ indices -> is_Some (live hw algorithm !! i)) ->
  exists registers,
    read_registers hw indices algorithm = Done registers
    ∧ forall i, i ∈ indices -> registers !! i = live hw algorithm !! i.
Proof.
  induction indices as [|i rest IH]; intros Hlive.
  - exists ∅. split; [reflexivity|]. intros i Hi. now apply elem_of_nil in Hi.
  - destruct (Hlive i) as [value Hvalue]; [apply elem_of_cons; now left|].
    destruct IH as (registers & Hread & Hsame).
    { intros j Hj. apply Hlive, elem_of_cons. now right. }
    exists (<[i := value]> registers). cbn [read_registers].
    rewrite Hvalue, Hread. split; [reflexivity|].
    intros j Hj. destruct (decide (j = i)) as [->|Hne].
    + now rewrite lookup_insert_eq.
    + rewrite lookup_insert_ne by congruence.
      apply Hsame. apply elem_of_cons in Hj as [?|?]; [contradiction|assumption].
Qed.

(** The values of registers that are all in the map can be collected. *)
Lemma register_values_present (indices : list Z) (registers : gmap Z bytes) :
  (forall i, i ∈ indices -> is_Some (registers !! i)) ->
  exists values, register_values indices registers = Done values.
Proof.
  induction indices as [|i rest IH]; intros Hpresent.
  - now exists [].
  - destruct (Hpresent i) as [value Hvalue]; [apply elem_of_cons; now left|].
    destruct IH as [values Hvalues].
    { intros j Hj. apply Hpresent, elem_of_cons. now right. }
    cbn [register_values]. rewrite Hvalue, Hvalues. now eexists.
Qed.

(** The round trip is not empty: [Seal] returns a blob whenever the
    hardware holds every register of the selection. *)
Lemma Seal_current_succeeds (hw : Hardware) (parent : Z) (secret : bytes)
    (selection : Selection) :
  (forall i, i ∈ sel_registers selection ->
             is_Some (live hw (sel_algorithm selection) !! i)) ->
  exists blob,
    Seal H H_algorithm H_size policy_command_identifier
      selection_structure_encoding hw parent secret
      (Some (CurrentRegisters selection)) = Done blob.
Proof.
  intros Hlive.
  destruct (read_registers_live hw _ _ Hlive) as (registers & Hread & Hsame).
  destruct (register_values_present (ascending_registers selection) registers)
    as [values Hvalues].
  { intros i Hi. unfold ascending_registers in Hi.
    rewrite merge_sort_Permutation, elem_of_remove_dups in Hi.
    rewrite Hsame by assumption. now apply Hlive. }
  unfold Seal, evaluate, policy_digest. rewrite Hread. cbn [andThen].
  rewrite Hvalues. cbn [andThen]. now eexists.
Qed.

(** C4. A blob that [Seal] returned for a secret under
    [CurrentRegisters] is opened by [Unseal] with no certify assertion,
    on the same hardware state, and the secret comes back unchanged. *)
Theorem C4_seal_unseal_roundtrip (hw : Hardware) (parent : Z) (secret : bytes)
    (selection : Selection) (blob : SealedBlob) :
  Seal H H_algorithm H_size policy_command_identifier
    selection_structure_encoding hw parent secret
    (Some (CurrentRegisters selection)) = Done blob ->
  Unseal H H_algorithm H_size policy_command_identifier
    selection_structure_encoding hw blob parent None = Done secret.
Proof.
  unfold Seal, Unseal, evaluate, presented_digest.
  destruct (read_registers hw _ _) as [registers|e] eqn:Hread;
    cbn [andThen]; [|discriminate].
  destruct (policy_digest _ _ _ _ _ _) as [digest|e] eqn:Hdigest;
    cbn [andThen]; [|discriminate].
  intros [= <-]. cbn [blob_parent blob_policy blob_payload].
  rewrite decide_False by (now intros Hne).
  rewrite Hread. cbn [andThen]. rewrite Hdigest. cbn [andThen].
  now rewrite decide_True.
Qed.

End SealingProperties.

(** C4 on the sample hardware, sealing under registers 7 and 23. *)
Lemma C4_seal_unseal_witness :
  exists blob,
    Sealing.Seal sample_hash 11 32 [x00; x00; x01; x7f]
      sample_selection_encoding sample_hardware 1 sample_secret
      (Some (Sealing.CurrentRegisters sample_selection)) = Sealing.Done blob
    ∧ Sealing.Unseal sample_hash 11 32 [x00; x00; x01; x7f]
        sample_selection_encoding sample_hardware blob 1 None
      = Sealing.Done sample_secret.
Proof.
  eexists. split.
  - vm_compute. reflexivity.
  - apply (C4_seal_unseal_roundtrip sample_hash 11 32 [x00; x00; x01; x7f]
             sample_selection_encoding sample_hardware 1 sample_secret
             sample_selection).
    vm_compute. reflexivity.
Defined.

(** ** The order of the digests under the library's tables *)

(** The tables of tpm2 invert each other through the type byte of a
    nested TLV. *)
Lemma GoLib_Algorithm_Hash_inverts (h a : Z) :
  HashToAlgorithm h = Ok a -> Algorithm_Hash (Z_of_byte (uint8 a)) = Ok h.
Proof.
  cbn [HashToAlgorithm Algorithm_Hash GoLib.lib].
  unfold GoLib.hashInfo. cbn [GoLib.HashToAlgorithm_in].
  repeat (case_decide; [intros [= <-]; subst h; reflexivity|]).
  discriminate.
Qed.

(** Distinct hashes of tpm2's table have algorithm identifiers that
    differ in their low byte. *)
Lemma GoLib_algorithm_bytes_distinct (h1 h2 a1 a2 : Z) :
  h1 ≠ h2 ->
  HashToAlgorithm h1 = Ok a1 -> HashToAlgorithm h2 = Ok a2 ->
  uint8 a1 ≠ uint8 a2.
Proof.
  intros Hne Ha1 Ha2 Hbytes.
  apply GoLib_Algorithm_Hash_inverts in Ha1, Ha2.
  rewrite Hbytes in Ha1. congruence.
Qed.

(** Under these tables, every digest map with two or more algorithms
    that [createDigestField] encodes has two encodings that differ. *)
Lemma GoLib_two_encodings (digestMap : gmap Z bytes) :
  (2 <= size digestMap)%nat ->
  map_Forall good_digest digestMap ->
  exists range1 range2 tlv1 tlv2,
    range_valid range1 ∧ range_valid range2
    ∧ createDigestField range1 digestMap = Ok tlv1
    ∧ createDigestField range2 digestMap = Ok tlv2
    ∧ Value tlv1 ≠ Value tlv2.
Proof.
  intros Hsize Hgood. rewrite <- length_map_to_list in Hsize.
  pose proof (NoDup_fst_map_to_list digestMap) as Hnodup.
  destruct (map_to_list digestMap) as [|[h1 d1] [|[h2 d2] rest]] eqn:Hlist;
    cbn [length] in Hsize; try lia.
  assert (digestMap !! h1 = Some d1) as Hd1.
  { apply elem_of_map_to_list. rewrite Hlist. apply elem_of_cons. now left. }
  assert (digestMap !! h2 = Some d2) as Hd2.
  { apply elem_of_map_to_list. rewrite Hlist.
    apply elem_of_cons. right. apply elem_of_cons. now left. }
  assert (h1 ≠ h2) as Hne.
  { cbn [fmap list_fmap fst] in Hnodup. apply NoDup_cons in Hnodup as [Hnotin _].
    intros ->. apply Hnotin, elem_of_cons. now left. }
  destruct (Hgood _ _ Hd1) as [_ Ha1]. destruct (Hgood _ _ Hd2) as [_ Ha2].
  apply is_Ok_true in Ha1 as [a1 Ha1]. apply is_Ok_true in Ha2 as [a2 Ha2].
  apply (two_iteration_orders_differ digestMap h1 h2 d1 d2 a1 a2);
    try assumption.
  now apply (GoLib_algorithm_bytes_distinct h1 h2).
Qed.

(** ** Runs of the code *)

Example MarshalBinary_run :
  MarshalBinary (mkTLV x05 [x01; x02]) = [x05; x00; x00; x00; x02; x01; x02].
Proof. reflexivity. Qed.

Example UnmarshalFirstTLV_run :
  UnmarshalFirstTLV [x07; x00; x00; x00; x02; x01; x02; x03]
  = (Ok (mkTLV x07 [x01; x02]), [x03]).
Proof. reflexivity. Qed.

Example UnmarshalFirstTLV_empty_value_run :
  UnmarshalFirstTLV [x07; x00; x00; x00; x00] = (Ok (mkTLV x07 []), []).
Proof. reflexivity. Qed.

Example UnmarshalFirstTLV_no_input_run :
  UnmarshalFirstTLV [] = (Err EOF, []).
Proof. reflexivity. Qed.

Example UnmarshalFirstTLV_short_length_run :
  UnmarshalFirstTLV [x07; x00; x00] = (Err EOF, []).
Proof. reflexivity. Qed.

Example UnmarshalRecNum_run :
  UnmarshalRecNum (createRecNumField 258) = Ok 258
  ∧ Value (createRecNumField 258)
    = [x00; x00; x00; x00; x00; x00; x01; x02].
Proof. split; reflexivity. Qed.

Example UnmarshalPCR_run : UnmarshalPCR (createPCRField x17) = Ok x17.
Proof. reflexivity. Qed.

Example DecodeToCEL_truncated_run :
  DecodeToCEL (take 30 (log_bytes sample_log_2)) = Some (Err ErrBufferEnds, []).
Proof. reflexivity. Qed.

Example DecodeToCELR_wrong_type_run :
  fst (DecodeToCELR (MarshalBinary (createPCRField x07)))
  = Err (ErrRecnumTLVType x01).
Proof. reflexivity. Qed.

Example AppendEvent_unknown_algorithm_run :
  AppendEvent GoLib.enumerated sample_log_1 7 [2] sample_event
  = (sample_log_1, Err GoLib.ErrNoTPMAlgorithm).
Proof. reflexivity. Qed.

Example computePCRValue_run :
  let result :=
    computePCRValue sample_hash sample_growslice [[x00]; [x01]; [x02]]
      (mkSliceHeader 0 0 1 1) [mkSliceHeader 1 0 1 1; mkSliceHeader 2 0 1 1] in
  contents (snd result) (fst result)
  = sample_hash (sample_hash [x00; x01] ++ [x02])
  ∧ take 3 (snd result) = [[x00]; [x01]; [x02]].
Proof. split; reflexivity. Qed.

Example Unseal_after_extend_run :
  exists blob,
    Sealing.Seal sample_hash 11 32 [x00; x00; x01; x7f]
      sample_selection_encoding sample_hardware 1 sample_secret
      (Some (Sealing.CurrentRegisters sample_selection)) = Sealing.Done blob
    ∧ Sealing.Unseal sample_hash 11 32 [x00; x00; x01; x7f]
        sample_selection_encoding
        (Sealing.mkHardware (fun _ => <[7 := repeat x00 32]>
                                        (<[23 := repeat x01 31 ++ [x02]]> ∅)))
        blob 1 None
      = Sealing.Failed Sealing.AuthorizationFailure.
Proof.
  eexists. split.
  - vm_compute. reflexivity.
  - vm_compute. reflexivity.
Qed.

(** * Further properties of the package *)

(** ** One TLV *)

(** Eight bytes are the encoding of the number they are read as. *)
Lemma PutUint64_Uint64 (b0 b1 b2 b3 b4 b5 b6 b7 : byte) (v : Z) :
  Uint64 [b0; b1; b2; b3; b4; b5; b6; b7] = Ok v ->
  PutUint64 v = [b0; b1; b2; b3; b4; b5; b6; b7].
Proof.
  unfold Uint64. cbn [index lookup list_lookup rbind]. intros [= <-].
  unfold PutUint64. repeat f_equal; [byte_bits ..|].
  apply byte_of_Z_bits; intros n Hn.
  rewrite ?Z.lor_spec, ?testbit_shifted_byte by lia.
  rewrite (testbit_unshifted_byte _ n) by lia.
  repeat case_decide; rewrite ?orb_false_r; simpl; try lia; f_equal; lia.
Qed.

Lemma Uint64_range (b0 b1 b2 b3 b4 b5 b6 b7 : byte) (v : Z) :
  Uint64 [b0; b1; b2; b3; b4; b5; b6; b7] = Ok v -> 0 <= v < 2 ^ 64.
Proof.
  intros Hv. pose proof (PutUint64_Uint64 _ _ _ _ _ _ _ _ _ Hv) as Hput.
  rewrite <- PutUint64_mod in Hput.
  pose proof (Z.mod_pos_bound v (2 ^ 64) ltac:(lia)) as Hb.
  pose proof (Uint64_PutUint64 _ Hb) as Hget.
  rewrite Hput, Hv in Hget. injection Hget as Hget. lia.
Qed.

(** The header of an encoding: the type, then the length field. *)
Lemma MarshalBinary_header (tlv : TLV) :
  valid_TLV tlv ->
  exists b0 b1 b2 b3,
    MarshalBinary tlv = Type_ tlv :: b0 :: b1 :: b2 :: b3 :: Value tlv
    ∧ Uint32 [b0; b1; b2; b3] = Ok (Z.of_nat (length (Value tlv))).
Proof.
  unfold valid_TLV. intros Hvalid. unfold MarshalBinary.
  rewrite uint32_small by lia.
  pose proof (Uint32_PutUint32 (Z.of_nat (length (Value tlv))) ltac:(lia)) as Hn.
  unfold PutUint32 in *. eexists _, _, _, _. split; [reflexivity|exact Hn].
Qed.

(** X1. [UnmarshalBinary] gives back the TLV that [MarshalBinary]
    encoded, whatever lies behind the slice in its backing array, when
    the value is shorter than [2 ^ 32] bytes. *)
Theorem X1_UnmarshalBinary_MarshalBinary (tlv : TLV) (extra : bytes) :
  valid_TLV tlv ->
  UnmarshalBinary (mkSlice (MarshalBinary tlv) extra) = Ok tlv.
Proof.
  intros Hvalid.
  destruct (MarshalBinary_header tlv Hvalid) as (b0 & b1 & b2 & b3 & -> & Hn).
  rewrite (UnmarshalBinary_header _ _ _ _ _ _ _ _ Hn).
  rewrite decide_False by (unfold valid_TLV in Hvalid; rewrite uint32_small; lia).
  now destruct tlv.
Qed.

Lemma X1_UnmarshalBinary_MarshalBinary_witness :
  UnmarshalBinary (mkSlice (MarshalBinary (mkTLV x05 [x01; x02])) [x09])
  = Ok (mkTLV x05 [x01; x02]).
Proof.
  apply (X1_UnmarshalBinary_MarshalBinary (mkTLV x05 [x01; x02]) [x09]).
  unfold valid_TLV. cbn. lia.
Defined.

(** X2. On fewer than [2 ^ 32 + 5] bytes [UnmarshalBinary] returns a TLV
    only for the exact encoding of that TLV: bytes missing from the
    value or left over after it are refused. *)
Theorem X2_UnmarshalBinary_only_encodings (data : slice) (tlv : TLV) :
  Z.of_nat (length (elems data)) < 2 ^ 32 + 5 ->
  UnmarshalBinary data = Ok tlv ->
  elems data = MarshalBinary tlv
  ∧ forall more, more ≠ [] ->
      Z.of_nat (length (elems data ++ more)) < 2 ^ 32 + 5 ->
      UnmarshalBinary (mkSlice (elems data ++ more) []) = Err ErrTLVLength.
Proof.
  intros Hsmall Hok.
  destruct (Nat.lt_ge_cases (length (elems data)) 5) as [Hshort|Hlong].
  { rewrite UnmarshalBinary_short in Hok by assumption. discriminate. }
  destruct data as [[|t [|b0 [|b1 [|b2 [|b3 value]]]]] extra];
    cbn [elems length] in *; try lia.
  destruct (Uint32 [b0; b1; b2; b3]) as [n| |] eqn:Hn;
    [|unfold Uint32 in Hn; discriminate ..].
  rewrite (UnmarshalBinary_header _ _ _ _ _ _ _ _ Hn) in Hok.
  case_decide as Hlen; [discriminate|].
  injection Hok as <-. rewrite uint32_small in Hlen by lia.
  split.
  - unfold MarshalBinary. cbn [Type_ Value].
    rewrite uint32_small, <- Hlen by lia.
    now rewrite (PutUint32_Uint32 _ _ _ _ _ Hn).
  - intros more Hmore Hsmall'. cbn [app].
    rewrite (UnmarshalBinary_header _ _ _ _ _ _ _ _ Hn).
    cbn [app length] in Hsmall'. rewrite length_app in *.
    rewrite decide_True; [reflexivity|].
    rewrite uint32_small by lia. destruct more; [contradiction|cbn [length]; lia].
Qed.

Lemma X2_UnmarshalBinary_only_encodings_witness :
  [x05; x00; x00; x00; x01; x07] = MarshalBinary (mkTLV x05 [x07])
  ∧ forall more, more ≠ [] ->
      Z.of_nat (length ([x05; x00; x00; x00; x01; x07] ++ more)) < 2 ^ 32 + 5 ->
      UnmarshalBinary (mkSlice ([x05; x00; x00; x00; x01; x07] ++ more) [])
      = Err ErrTLVLength.
Proof.
  apply (X2_UnmarshalBinary_only_encodings
           (mkSlice [x05; x00; x00; x00; x01; x07] []) (mkTLV x05 [x07])).
  - cbn. lia.
  - reflexivity.
Defined.

(** X3. Encodings are self-delimiting: when two streams that start with
    the encodings of two TLVs are the same stream, the TLVs are the same
    and so is what follows them. *)
Theorem X3_MarshalBinary_self_delimiting (tlv1 tlv2 : TLV) (rest1 rest2 : bytes) :
  valid_TLV tlv1 -> valid_TLV tlv2 ->
  MarshalBinary tlv1 ++ rest1 = MarshalBinary tlv2 ++ rest2 ->
  tlv1 = tlv2 ∧ rest1 = rest2.
Proof.
  intros Hvalid1 Hvalid2 Hsame.
  pose proof (UnmarshalFirstTLV_MarshalBinary tlv1 rest1 Hvalid1) as Hread1.
  pose proof (UnmarshalFirstTLV_MarshalBinary tlv2 rest2 Hvalid2) as Hread2.
  rewrite Hsame, Hread2 in Hread1. now injection Hread1 as <- <-.
Qed.

Lemma X3_MarshalBinary_self_delimiting_witness :
  mkTLV x05 [x01] = mkTLV x05 [x01] ∧ [x02; x03] = [x02; x03].
Proof.
  apply (X3_MarshalBinary_self_delimiting (mkTLV x05 [x01]) (mkTLV x05 [x01])
           [x02; x03] [x02; x03]).
  - unfold valid_TLV. cbn. lia.
  - unfold valid_TLV. cbn. lia.
  - reflexivity.
Defined.

(** X23. Reading back what [MarshalBinary] wrote, for a value of any
    length: [UnmarshalFirstTLV] returns the type with as many bytes of
    the value as its length says modulo [2 ^ 32] and leaves the others
    in the stream.  For a value shorter than [2 ^ 32] bytes that is the
    whole TLV; a longer one is cut without an error. *)
Theorem X23_UnmarshalFirstTLV_length_wraps (tlv : TLV) (rest : bytes) :
  UnmarshalFirstTLV (MarshalBinary tlv ++ rest)
  = (Ok (mkTLV (Type_ tlv)
           (take (Z.to_nat (uint32 (Z.of_nat (length (Value tlv)))))
              (Value tlv))),
     drop (Z.to_nat (uint32 (Z.of_nat (length (Value tlv))))) (Value tlv)
       ++ rest).
Proof.
  pose proof (Z.mod_pos_bound (Z.of_nat (length (Value tlv))) (2 ^ 32)
                ltac:(lia)) as Hrange.
  pose proof (Z.mod_le (Z.of_nat (length (Value tlv))) (2 ^ 32)
                ltac:(lia) ltac:(lia)) as Hle.
  fold (uint32 (Z.of_nat (length (Value tlv)))) in Hrange, Hle.
  pose proof (Uint32_PutUint32 _ Hrange) as Hn.
  unfold MarshalBinary. unfold PutUint32 in *. cbn [app].
  rewrite (UnmarshalFirstTLV_header _ _ _ _ _ _ _ Hn).
  rewrite decide_True by (rewrite length_app; lia).
  now rewrite take_app_le, drop_app_le by lia.
Qed.

(** ** The RECNUM and PCR fields *)

Lemma uint32_at_least (n k : nat) :
  uint32 (Z.of_nat n) = Z.of_nat k -> (k <= n)%nat.
Proof.
  unfold uint32. intros Hmod.
  pose proof (Z.mod_le (Z.of_nat n) (2 ^ 32) ltac:(lia) ltac:(lia)). lia.
Qed.

(** X4. A valid TLV is read by [UnmarshalRecNum] as the record number
    [n] exactly when it is the field [createRecNumField] makes for [n],
    a number of 64 bits. *)
Theorem X4_UnmarshalRecNum_createRecNumField (tlv : TLV) (n : Z) :
  valid_TLV tlv ->
  UnmarshalRecNum tlv = Ok n
  <-> tlv = createRecNumField n ∧ 0 <= n < 2 ^ 64.
Proof.
  unfold valid_TLV. intros Hvalid. split.
  - unfold UnmarshalRecNum, recnumValueLength.
    case_decide as Htype; [discriminate|].
    case_decide as Hlen; [discriminate|].
    rewrite uint32_small in Hlen by lia.
    destruct tlv as [t [|b0 [|b1 [|b2 [|b3 [|b4 [|b5 [|b6 [|b7 [|b8 value]]]]]]]]]];
      cbn [Value Type_ length] in *; try lia.
    intros Hn. split; [|now apply Uint64_range in Hn].
    unfold createRecNumField. rewrite (PutUint64_Uint64 _ _ _ _ _ _ _ _ _ Hn).
    f_equal. now apply dec_stable.
  - intros [-> Hn].
    destruct (createRecNumField_value n) as (_ & _ & _ & _ & ->).
    now rewrite Z.mod_small.
Qed.

Lemma X4_UnmarshalRecNum_witness :
  UnmarshalRecNum (mkTLV x00 [x00; x00; x00; x00; x00; x00; x01; x02]) = Ok 258
  <-> mkTLV x00 [x00; x00; x00; x00; x00; x00; x01; x02] = createRecNumField 258
      ∧ 0 <= 258 < 2 ^ 64.
Proof.
  apply (X4_UnmarshalRecNum_createRecNumField
           (mkTLV x00 [x00; x00; x00; x00; x00; x00; x01; x02]) 258).
  unfold valid_TLV. cbn. lia.
Defined.

(** X5. A valid TLV is read by [UnmarshalPCR] as the register [pcrNum]
    exactly when it is the field [createPCRField] makes for it. *)
Theorem X5_UnmarshalPCR_createPCRField (tlv : TLV) (pcrNum : byte) :
  valid_TLV tlv ->
  UnmarshalPCR tlv = Ok pcrNum <-> tlv = createPCRField pcrNum.
Proof.
  unfold valid_TLV. intros Hvalid. split.
  - unfold UnmarshalPCR, pcrValueLength.
    case_decide as Htype; [discriminate|].
    case_decide as Hlen; [discriminate|].
    rewrite uint32_small in Hlen by lia.
    destruct tlv as [t [|b0 [|b1 value]]]; cbn [Value Type_ length] in *; try lia.
    cbn [index lookup list_lookup]. intros [= <-].
    unfold createPCRField. f_equal. now apply dec_stable.
  - intros ->. reflexivity.
Qed.

Lemma X5_UnmarshalPCR_witness :
  UnmarshalPCR (mkTLV x01 [x17]) = Ok x17 <-> mkTLV x01 [x17] = createPCRField x17.
Proof.
  apply (X5_UnmarshalPCR_createPCRField (mkTLV x01 [x17]) x17).
  unfold valid_TLV. cbn. lia.
Defined.

(** X6. [UnmarshalRecNum] and [UnmarshalPCR] never panic, on any TLV:
    a wrong type or a wrong value length is an error, and the length
    check keeps the reads of the value in range. *)
Theorem X6_field_readers_never_panic (tlv : TLV) :
  UnmarshalRecNum tlv ≠ Panic ∧ UnmarshalPCR tlv ≠ Panic
  ∧ (Type_ tlv ≠ recnumTypeValue ->
     UnmarshalRecNum tlv = Err (ErrRecnumFieldType (Type_ tlv)))
  ∧ (Type_ tlv ≠ pcrTypeValue ->
     UnmarshalPCR tlv = Err (ErrPCRFieldType (Type_ tlv)))
  ∧ (Type_ tlv = recnumTypeValue -> length (Value tlv) ≠ 8%nat ->
     valid_TLV tlv ->
     UnmarshalRecNum tlv = Err (ErrRecnumFieldLength (length (Value tlv))))
  ∧ (Type_ tlv = pcrTypeValue -> length (Value tlv) ≠ 1%nat ->
     valid_TLV tlv ->
     UnmarshalPCR tlv = Err (ErrPCRFieldLength (length (Value tlv)))).
Proof.
  unfold UnmarshalRecNum, UnmarshalPCR, recnumValueLength, pcrValueLength, valid_TLV.
  split; [|split; [|split; [|split; [|split]]]].
  - case_decide; [discriminate|]. case_decide as Hlen; [discriminate|].
    try apply dec_stable in Hlen. apply (uint32_at_least _ 8) in Hlen.
    destruct (Value tlv) as [|b0 [|b1 [|b2 [|b3 [|b4 [|b5 [|b6 [|b7 value]]]]]]]];
      cbn [length] in Hlen; try lia.
    discriminate.
  - case_decide; [discriminate|]. case_decide as Hlen; [discriminate|].
    try apply dec_stable in Hlen. apply (uint32_at_least _ 1) in Hlen.
    destruct (Value tlv); cbn [length] in Hlen; [lia|discriminate].
  - intros Htype. now rewrite decide_True.
  - intros Htype. now rewrite decide_True.
  - intros Htype Hlen Hvalid. rewrite decide_False by (now intros Hne).
    rewrite decide_True; [reflexivity|]. rewrite uint32_small; lia.
  - intros Htype Hlen Hvalid. rewrite decide_False by (now intros Hne).
    rewrite decide_True; [reflexivity|]. rewrite uint32_small; lia.
Qed.

(** ** Decoding records and logs *)

(** The two ways a read of one TLV ends. *)
Lemma UnmarshalFirstTLV_outcome (buf : bytes) :
  UnmarshalFirstTLV buf = (Err EOF, [])
  ∨ exists tlv rest, UnmarshalFirstTLV buf = (Ok tlv, rest).
Proof.
  destruct (Nat.lt_ge_cases (length buf) 5) as [Hshort|Hlong].
  { left. now apply UnmarshalFirstTLV_short. }
  destruct buf as [|t [|b0 [|b1 [|b2 [|b3 avail]]]]]; cbn [length] in Hlong; try lia.
  destruct (Uint32 [b0; b1; b2; b3]) as [n| |] eqn:Hn;
    [|unfold Uint32 in Hn; discriminate ..].
  rewrite (UnmarshalFirstTLV_header _ _ _ _ _ _ _ Hn).
  case_decide; [right; eauto|now left].
Qed.

(** A record is returned only from a stream that starts with its
    encoding. *)
Lemma DecodeToCELR_Ok_inv (buf rest : bytes) (celr : Record_) :
  DecodeToCELR buf = (Ok celr, rest) ->
  buf = record_bytes celr ++ rest ∧ valid_Record celr.
Proof.
  unfold DecodeToCELR, bind, ret, fail.
  destruct (UnmarshalFirstTLV buf) as [[recnum| |] buf1] eqn:Hread1;
    [|discriminate ..].
  case_decide as Htype1; [discriminate|].
  destruct (UnmarshalFirstTLV buf1) as [[pcr| |] buf2] eqn:Hread2;
    [|discriminate ..].
  case_decide as Htype2; [discriminate|].
  destruct (UnmarshalFirstTLV buf2) as [[digests| |] buf3] eqn:Hread3;
    [|discriminate ..].
  case_decide as Htype3; [discriminate|].
  destruct (UnmarshalFirstTLV buf3) as [[content| |] buf4] eqn:Hread4;
    [|discriminate ..].
  intros [= <- <-].
  apply UnmarshalFirstTLV_Ok_inv in Hread1 as [-> Hvalid1].
  apply UnmarshalFirstTLV_Ok_inv in Hread2 as [-> Hvalid2].
  apply UnmarshalFirstTLV_Ok_inv in Hread3 as [-> Hvalid3].
  apply UnmarshalFirstTLV_Ok_inv in Hread4 as [-> Hvalid4].
  split.
  - rewrite record_bytes_fields. cbn [RECNUM PCR Digests Content_].
    now rewrite <- !app_assoc.
  - unfold valid_Record. cbn [RECNUM PCR Digests Content_].
    repeat split; try assumption; now apply dec_stable.
Qed.

(** X7. [DecodeToCELR] returns a record only from a stream that starts
    with the encoding of that record, which is then a valid record, and
    it leaves the cursor just behind that encoding. *)
Theorem X7_DecodeToCELR_only_encodings (buf rest : bytes) (celr : Record_) :
  DecodeToCELR buf = (Ok celr, rest) ->
  buf = record_bytes celr ++ rest ∧ valid_Record celr.
Proof. apply DecodeToCELR_Ok_inv. Qed.

Lemma X7_DecodeToCELR_witness :
  record_bytes (sample_record 5) ++ [x09]
  = record_bytes (sample_record 5) ++ [x09]
  ∧ valid_Record (sample_record 5).
Proof.
  apply (X7_DecodeToCELR_only_encodings
           (record_bytes (sample_record 5) ++ [x09]) [x09] (sample_record 5)).
  reflexivity.
Defined.

Lemma DecodeToCEL_loop_Ok_inv (fuel : nat) :
  forall (acc : list Record_) (buf rest : bytes) (c : CEL),
    DecodeToCEL_loop fuel acc buf = Some (Ok c, rest) ->
    rest = []
    ∧ exists new, Records c = acc ++ new
        ∧ buf = concat (map record_bytes new)
        ∧ Forall valid_Record new.
Proof.
  induction fuel as [|fuel IH]; intros acc buf rest c; cbn [DecodeToCEL_loop];
    case_decide as Hlen; try discriminate.
  - intros [= <- <-]. destruct buf; [|cbn in Hlen; lia].
    split; [reflexivity|]. exists []. now rewrite app_nil_r.
  - destruct (DecodeToCELR buf) as [[celr|e|] buf'] eqn:Hdecode;
      [|destruct e; discriminate|discriminate].
    intros Hloop. apply IH in Hloop as (-> & new & Hrecords & -> & Hvalid).
    apply DecodeToCELR_Ok_inv in Hdecode as [-> Hcelr].
    split; [reflexivity|]. exists (celr :: new).
    rewrite Hrecords, <- app_assoc. repeat split. now constructor.
  - intros [= <- <-]. destruct buf; [|cbn in Hlen; lia].
    split; [reflexivity|]. exists []. now rewrite app_nil_r.
Qed.

(** X8. [DecodeToCEL] returns a log only for a buffer that is, to its
    last byte, the encoding [EncodeCEL] gives that log, and every record
    of the log is then valid; nothing is left in the buffer. *)
Theorem X8_DecodeToCEL_only_encodings (buf rest : bytes) (c : CEL) :
  DecodeToCEL buf = Some (Ok c, rest) ->
  rest = [] ∧ buf = log_bytes c ∧ Forall valid_Record (Records c).
Proof.
  unfold DecodeToCEL. intros Hdecode.
  apply DecodeToCEL_loop_Ok_inv in Hdecode as (-> & new & Hrecords & -> & Hvalid).
  cbn [app] in Hrecords. rewrite log_bytes_concat, Hrecords. now repeat split.
Qed.

Lemma X8_DecodeToCEL_witness :
  [] = ([] : bytes)
  ∧ log_bytes sample_log_2 = log_bytes sample_log_2
  ∧ Forall valid_Record (Records sample_log_2).
Proof.
  apply (X8_DecodeToCEL_only_encodings (log_bytes sample_log_2) [] sample_log_2).
  reflexivity.
Defined.

Lemma DecodeToCELR_outcome (buf : bytes) :
  (exists celr rest, DecodeToCELR buf = (Ok celr, rest))
  ∨ DecodeToCELR buf = (Err EOF, [])
  ∨ exists e rest, DecodeToCELR buf = (Err e, rest) ∧ e ≠ EOF.
Proof.
  unfold DecodeToCELR, bind, ret, fail.
  destruct (UnmarshalFirstTLV_outcome buf) as [->|(recnum & buf1 & ->)];
    [now right; left|].
  case_decide; [right; right; eexists _, _; split; [reflexivity|discriminate]|].
  destruct (UnmarshalFirstTLV_outcome buf1) as [->|(pcr & buf2 & ->)];
    [now right; left|].
  case_decide; [right; right; eexists _, _; split; [reflexivity|discriminate]|].
  destruct (UnmarshalFirstTLV_outcome buf2) as [->|(digests & buf3 & ->)];
    [now right; left|].
  case_decide; [right; right; eexists _, _; split; [reflexivity|discriminate]|].
  destruct (UnmarshalFirstTLV_outcome buf3) as [->|(content & buf4 & ->)];
    [now right; left|].
  left. eauto.
Qed.

Lemma DecodeToCEL_loop_outcome (fuel : nat) :
  forall (acc : list Record_) (buf : bytes),
    (length buf <= fuel)%nat ->
    exists r rest, DecodeToCEL_loop fuel acc buf = Some (r, rest)
      ∧ r ≠ Panic ∧ r ≠ Err EOF.
Proof.
  induction fuel as [|fuel IH]; intros acc buf Hfuel; cbn [DecodeToCEL_loop];
    case_decide as Hlen;
    try (eexists _, _; split; [reflexivity|split; discriminate]).
  - unfold Buffer_Len in Hlen. lia.
  - destruct (DecodeToCELR_outcome buf)
      as [(celr & rest & Hdecode)|[Hdecode|(e & rest & Hdecode & He)]];
      rewrite Hdecode.
    + apply DecodeToCELR_consumes in Hdecode. apply IH. lia.
    + eexists _, _. split; [reflexivity|split; discriminate].
    + destruct e; try contradiction;
        (eexists _, _; split; [reflexivity|split; discriminate]).
Qed.

(** X9. [DecodeToCEL] returns on every buffer, after at most as many
    records as the buffer has bytes; it never panics, and it never hands
    [io.EOF] on: a stream that ends inside a record is reported by the
    error of its own. *)
Theorem X9_DecodeToCEL_returns (buf : bytes) :
  exists r rest,
    DecodeToCEL buf = Some (r, rest) ∧ r ≠ Panic ∧ r ≠ Err EOF.
Proof. unfold DecodeToCEL. now apply DecodeToCEL_loop_outcome. Qed.

(** A stream cut inside the encoding of a TLV ends the read with
    [io.EOF]; cut behind it, the TLV is read. *)
Lemma UnmarshalFirstTLV_take (tlv : TLV) (rest : bytes) (k : nat) :
  valid_TLV tlv ->
  UnmarshalFirstTLV (take k (MarshalBinary tlv ++ rest))
  = if decide (k < length (MarshalBinary tlv))%nat
    then (Err EOF, [])
    else (Ok tlv, take (k - length (MarshalBinary tlv)) rest).
Proof.
  intros Hvalid. case_decide as Hk.
  - rewrite take_app_le by lia.
    destruct (MarshalBinary_header tlv Hvalid) as (b0 & b1 & b2 & b3 & Hbytes & Hn).
    rewrite Hbytes in *. cbn [length] in Hk.
    destruct (Nat.lt_ge_cases k 5) as [Hshort|Hlong].
    { apply UnmarshalFirstTLV_short. rewrite length_take. lia. }
    do 5 (destruct k as [|k]; [lia|]). cbn [take].
    rewrite (UnmarshalFirstTLV_header _ _ _ _ _ _ _ Hn).
    rewrite decide_False; [reflexivity|]. rewrite length_take. lia.
  - rewrite take_app_ge by lia.
    now rewrite UnmarshalFirstTLV_MarshalBinary.
Qed.

(** A stream cut inside the encoding of a valid record ends
    [DecodeToCELR] with [io.EOF] and an empty buffer. *)
Lemma DecodeToCELR_take (celr : Record_) (k : nat) :
  valid_Record celr ->
  (k < length (record_bytes celr))%nat ->
  DecodeToCELR (take k (record_bytes celr)) = (Err EOF, []).
Proof.
  intros [(Hrecnum & Hpcr & Hdigests & Hcontent) (Trecnum & Tpcr & Tdigests)].
  rewrite record_bytes_fields, !length_app. intros Hk.
  unfold DecodeToCELR, bind, ret, fail.
  rewrite UnmarshalFirstTLV_take by assumption.
  case_decide; [reflexivity|].
  rewrite decide_False by (now intros Hne).
  rewrite UnmarshalFirstTLV_take by assumption.
  case_decide; [reflexivity|].
  rewrite decide_False by (now intros Hne).
  rewrite UnmarshalFirstTLV_take by assumption.
  case_decide; [reflexivity|].
  rewrite decide_False by (now intros Hne).
  rewrite <- (app_nil_r (MarshalBinary (Content_ celr))).
  rewrite UnmarshalFirstTLV_take by assumption.
  rewrite decide_True by lia. reflexivity.
Qed.

(** The loop of [DecodeToCEL] goes through the encodings of valid
    records and carries on with what follows them. *)
Lemma DecodeToCEL_loop_through (done : list Record_) :
  Forall valid_Record done ->
  forall (fuel : nat) (acc : list Record_) (tail : bytes),
    (length (concat (map record_bytes done) ++ tail) <= fuel)%nat ->
    exists fuel',
      (length tail <= fuel')%nat
      ∧ DecodeToCEL_loop fuel acc (concat (map record_bytes done) ++ tail)
        = DecodeToCEL_loop fuel' (acc ++ done) tail.
Proof.
  induction 1 as [|celr done Hcelr _ IH]; intros fuel acc tail Hfuel.
  - exists fuel. cbn [map concat app] in *. now rewrite app_nil_r.
  - cbn [map concat] in *. rewrite <- app_assoc in *.
    rewrite length_app in Hfuel. pose proof (record_bytes_nonempty celr).
    destruct fuel as [|fuel]; [lia|]. cbn [DecodeToCEL_loop].
    rewrite decide_True by (unfold Buffer_Len; rewrite length_app; lia).
    rewrite DecodeToCELR_record_bytes by assumption.
    destruct (IH fuel (acc ++ [celr]) tail ltac:(lia)) as (fuel' & Hfuel' & ->).
    exists fuel'. split; [assumption|]. now rewrite <- app_assoc.
Qed.

(** X10. A log of valid records whose encoding is cut inside a record
    is refused: [DecodeToCEL] on the encodings of some records followed
    by a non-empty proper prefix of the encoding of one more returns the
    buffer-ends error, with the buffer consumed. *)
Theorem X10_DecodeToCEL_truncated (done : list Record_) (celr : Record_)
    (k : nat) :
  Forall valid_Record done ->
  valid_Record celr ->
  (0 < k < length (record_bytes celr))%nat ->
  DecodeToCEL (log_bytes (mkCEL done) ++ take k (record_bytes celr))
  = Some (Err ErrBufferEnds, []).
Proof.
  intros Hdone Hcelr Hk. unfold DecodeToCEL. rewrite log_bytes_concat.
  cbn [Records].
  destruct (DecodeToCEL_loop_through done Hdone _ [] (take k (record_bytes celr))
              (Nat.le_refl _)) as (fuel & Hfuel & ->).
  rewrite length_take in Hfuel.
  destruct fuel as [|fuel]; [lia|]. cbn [DecodeToCEL_loop].
  rewrite decide_True by (unfold Buffer_Len; rewrite length_take; lia).
  now rewrite DecodeToCELR_take.
Qed.

Lemma X10_DecodeToCEL_truncated_witness :
  DecodeToCEL (log_bytes (mkCEL [sample_record 0])
                 ++ take 13 (record_bytes (sample_record 1)))
  = Some (Err ErrBufferEnds, []).
Proof.
  apply (X10_DecodeToCEL_truncated [sample_record 0] (sample_record 1) 13).
  - repeat constructor; apply valid_sample_record.
  - apply valid_sample_record.
  - cbn. lia.
Defined.

(** X11. [DecodeToCELR] checks the type of each of the first three
    TLVs against its position and reports the first one that differs,
    leaving the cursor behind that TLV; the type of the fourth TLV is
    free. *)
Theorem X11_DecodeToCELR_position_types (recnum pcr digests content : TLV)
    (rest : bytes) :
  valid_TLV recnum -> valid_TLV pcr -> valid_TLV digests -> valid_TLV content ->
  DecodeToCELR (MarshalBinary recnum ++ MarshalBinary pcr
                  ++ MarshalBinary digests ++ MarshalBinary content ++ rest)
  = if decide (Type_ recnum ≠ recnumTypeValue)
    then (Err (ErrRecnumTLVType (Type_ recnum)),
          MarshalBinary pcr ++ MarshalBinary digests
            ++ MarshalBinary content ++ rest)
    else if decide (Type_ pcr ≠ pcrTypeValue)
    then (Err (ErrPCRTLVType (Type_ pcr)),
          MarshalBinary digests ++ MarshalBinary content ++ rest)
    else if decide (Type_ digests ≠ digestsTypeValue)
    then (Err (ErrDigestsTLVType (Type_ digests)),
          MarshalBinary content ++ rest)
    else (Ok (mkRecord recnum pcr digests content), rest).
Proof.
  intros Hrecnum Hpcr Hdigests Hcontent.
  unfold DecodeToCELR, bind, ret, fail.
  rewrite UnmarshalFirstTLV_MarshalBinary by assumption.
  case_decide; [reflexivity|].
  rewrite UnmarshalFirstTLV_MarshalBinary by assumption.
  case_decide; [reflexivity|].
  rewrite UnmarshalFirstTLV_MarshalBinary by assumption.
  case_decide; [reflexivity|].
  now rewrite UnmarshalFirstTLV_MarshalBinary by assumption.
Qed.

Lemma X11_DecodeToCELR_position_types_witness :
  DecodeToCELR (MarshalBinary (createRecNumField 0)
                  ++ MarshalBinary (mkTLV x02 [x07])
                  ++ MarshalBinary (mkTLV x03 [])
                  ++ MarshalBinary (mkTLV x50 []) ++ [])
  = (Err (ErrPCRTLVType x02),
     MarshalBinary (mkTLV x03 []) ++ MarshalBinary (mkTLV x50 []) ++ []).
Proof.
  apply (X11_DecodeToCELR_position_types (createRecNumField 0) (mkTLV x02 [x07])
           (mkTLV x03 []) (mkTLV x50 []) []);
    unfold valid_TLV; cbn; lia.
Defined.

(** ** Encoding logs *)

(** X12. [EncodeCEL] never fails and only adds to the buffer: what the
    buffer held stays in front, followed by the encodings of the records
    in order, so the encoding of a log is the encoding of its first
    records followed by the encoding of the others. *)
Theorem X12_EncodeCEL_appends (records1 records2 : list Record_) (buf : bytes) :
  EncodeCEL (mkCEL (records1 ++ records2)) buf
  = (Ok tt, buf ++ log_bytes (mkCEL records1) ++ log_bytes (mkCEL records2))
  ∧ EncodeCEL (mkCEL (records1 ++ records2)) buf
    = (Ok tt, snd (EncodeCEL (mkCEL records2)
                     (snd (EncodeCEL (mkCEL records1) buf)))).
Proof.
  unfold EncodeCEL. cbn [Records].
  rewrite !EncodeCEL_loop_bytes, !log_bytes_concat. cbn [Records snd].
  now rewrite map_app, concat_app, <- app_assoc.
Qed.

(** ** Decoding the DIGESTS field *)

Section DigestProperties.
Context `{HashLib}.

Lemma not_complete_EOF (buf : bytes) :
  ¬ complete buf -> UnmarshalFirstTLV buf = (Err EOF, []).
Proof.
  intros Hincomplete.
  destruct (Nat.lt_ge_cases (length buf) 5) as [Hshort|Hlong].
  { now apply UnmarshalFirstTLV_short. }
  destruct buf as [|t [|b0 [|b1 [|b2 [|b3 avail]]]]]; cbn [length] in Hlong; try lia.
  destruct (Uint32 [b0; b1; b2; b3]) as [n| |] eqn:Hn;
    [|unfold Uint32 in Hn; discriminate ..].
  rewrite (complete_header t _ _ _ _ avail _ Hn) in Hincomplete.
  rewrite (UnmarshalFirstTLV_header _ _ _ _ _ _ _ Hn).
  now rewrite decide_False.
Qed.

(** On an empty buffer the loop returns the map it has, whatever the
    fuel. *)
Lemma UnmarshalDigests_loop_nil (fuel : nat) (digestsMap : gmap Z bytes) :
  UnmarshalDigests_loop fuel [] digestsMap = Some (Ok digestsMap).
Proof. destruct fuel; reflexivity. Qed.

(** The loop goes through nested TLVs that decode and carries on, with
    the map they gave, on what follows them. *)
Lemma UnmarshalDigests_loop_through (fuel : nat) :
  forall (buf : bytes) (acc m : gmap Z bytes),
    UnmarshalDigests_loop fuel buf acc = Some (Ok m) ->
    forall (fuel' : nat) (tail : bytes),
      (length (buf ++ tail) <= fuel')%nat ->
      exists fuel'',
        (length tail <= fuel'')%nat
        ∧ UnmarshalDigests_loop fuel' (buf ++ tail) acc
          = UnmarshalDigests_loop fuel'' tail m.
Proof.
  induction fuel as [|fuel IH]; intros buf acc m Hloop fuel' tail Hfuel.
  - destruct buf as [|b buf]; [|discriminate].
    injection Hloop as <-. exists fuel'. now split.
  - destruct buf as [|b buf].
    { injection Hloop as <-. exists fuel'. now split. }
    cbn [UnmarshalDigests_loop] in Hloop.
    rewrite decide_True in Hloop by (cbn; lia).
    destruct (UnmarshalFirstTLV (b :: buf)) as [[digestTLV|e|] rest] eqn:Hread;
      [|destruct e; discriminate|discriminate].
    destruct (Algorithm_Hash _) as [hashAlg| |] eqn:Halg; [|discriminate ..].
    apply UnmarshalFirstTLV_Ok_inv in Hread as [Hbuf Hvalid].
    rewrite Hbuf in *. rewrite <- app_assoc in *.
    rewrite length_app, MarshalBinary_length in Hfuel.
    destruct fuel' as [|fuel']; [lia|]. cbn [UnmarshalDigests_loop].
    rewrite decide_True
      by (unfold Buffer_Len; rewrite length_app, MarshalBinary_length; lia).
    rewrite UnmarshalFirstTLV_MarshalBinary by assumption. rewrite Halg.
    apply (IH _ _ _ Hloop). lia.
Qed.

(** Through a value that decodes, seen from [UnmarshalDigests]. *)
Lemma UnmarshalDigests_through (value tail : bytes) (m : gmap Z bytes) :
  UnmarshalDigests (mkTLV digestsTypeValue value) = Some (Ok m) ->
  exists fuel,
    (length tail <= fuel)%nat
    ∧ UnmarshalDigests (mkTLV digestsTypeValue (value ++ tail))
      = UnmarshalDigests_loop fuel tail m.
Proof.
  unfold UnmarshalDigests. cbn [Type_ Value].
  rewrite !decide_False by (now intros Hne). intros Hloop.
  apply (UnmarshalDigests_loop_through _ _ _ _ Hloop). lia.
Qed.

(** One more nested TLV behind a value that decodes. *)
Lemma UnmarshalDigests_append (value : bytes) (m : gmap Z bytes)
    (digestTLV : TLV) (hashAlg : Z) :
  UnmarshalDigests (mkTLV digestsTypeValue value) = Some (Ok m) ->
  valid_TLV digestTLV ->
  Algorithm_Hash (Z_of_byte (Type_ digestTLV)) = Ok hashAlg ->
  UnmarshalDigests (mkTLV digestsTypeValue (value ++ MarshalBinary digestTLV))
  = Some (Ok (<[hashAlg := Value digestTLV]> m)).
Proof.
  intros Hvalue Hvalid Halg.
  destruct (UnmarshalDigests_through value (MarshalBinary digestTLV) m Hvalue)
    as (fuel & Hfuel & ->).
  rewrite MarshalBinary_length in Hfuel.
  destruct fuel as [|fuel]; [lia|]. cbn [UnmarshalDigests_loop].
  rewrite decide_True by (unfold Buffer_Len; rewrite MarshalBinary_length; lia).
  rewrite <- (app_nil_r (MarshalBinary digestTLV)).
  rewrite UnmarshalFirstTLV_MarshalBinary by assumption.
  rewrite Halg. apply UnmarshalDigests_loop_nil.
Qed.

(** X13. A nested TLV added behind a DIGESTS value that decodes is
    decoded into the same map with its own entry put in: its value
    becomes the digest of its algorithm, in place of an earlier entry of
    that algorithm if there was one, whatever the length of the value. *)
Theorem X13_UnmarshalDigests_last_entry (value : bytes) (m : gmap Z bytes)
    (digestTLV : TLV) (hashAlg : Z) :
  UnmarshalDigests (mkTLV digestsTypeValue value) = Some (Ok m) ->
  valid_TLV digestTLV ->
  Algorithm_Hash (Z_of_byte (Type_ digestTLV)) = Ok hashAlg ->
  exists m',
    UnmarshalDigests (mkTLV digestsTypeValue (value ++ MarshalBinary digestTLV))
    = Some (Ok m')
    ∧ m' !! hashAlg = Some (Value digestTLV)
    ∧ forall other, other ≠ hashAlg -> m' !! other = m !! other.
Proof.
  intros Hvalue Hvalid Halg. exists (<[hashAlg := Value digestTLV]> m).
  split; [now apply UnmarshalDigests_append|].
  split; [apply lookup_insert_eq|].
  intros other Hother. now apply lookup_insert_ne.
Qed.

(** X14. A nested TLV with an algorithm identifier that the library
    does not know ends [UnmarshalDigests] with the library's error,
    wherever it stands behind nested TLVs that decode and whatever
    follows it. *)
Theorem X14_UnmarshalDigests_unknown_algorithm (value rest : bytes)
    (m : gmap Z bytes) (digestTLV : TLV) (e : error) :
  UnmarshalDigests (mkTLV digestsTypeValue value) = Some (Ok m) ->
  valid_TLV digestTLV ->
  Algorithm_Hash (Z_of_byte (Type_ digestTLV)) = Err e ->
  UnmarshalDigests
    (mkTLV digestsTypeValue (value ++ MarshalBinary digestTLV ++ rest))
  = Some (Err e).
Proof.
  intros Hvalue Hvalid Halg.
  destruct (UnmarshalDigests_through value (MarshalBinary digestTLV ++ rest) m
              Hvalue) as (fuel & Hfuel & ->).
  rewrite length_app, MarshalBinary_length in Hfuel.
  destruct fuel as [|fuel]; [lia|]. cbn [UnmarshalDigests_loop].
  rewrite decide_True
    by (unfold Buffer_Len; rewrite length_app, MarshalBinary_length; lia).
  rewrite UnmarshalFirstTLV_MarshalBinary by assumption.
  now rewrite Halg.
Qed.

(** X15. A DIGESTS value that ends inside a nested TLV is refused with
    the buffer-ends error, never with [io.EOF] itself: bytes that are
    not a whole TLV, behind nested TLVs that decode. *)
Theorem X15_UnmarshalDigests_truncated (value tail : bytes) (m : gmap Z bytes) :
  UnmarshalDigests (mkTLV digestsTypeValue value) = Some (Ok m) ->
  tail ≠ [] ->
  ¬ complete tail ->
  UnmarshalDigests (mkTLV digestsTypeValue (value ++ tail))
  = Some (Err ErrBufferEnds).
Proof.
  intros Hvalue Hnonempty Hincomplete.
  destruct (UnmarshalDigests_through value tail m Hvalue) as (fuel & Hfuel & ->).
  destruct tail as [|b tail]; [contradiction|]. cbn [length] in Hfuel.
  destruct fuel as [|fuel]; [lia|]. cbn [UnmarshalDigests_loop].
  rewrite decide_True by (cbn; lia).
  now rewrite not_complete_EOF.
Qed.


(** ** Encoding and decoding the DIGESTS field *)

Lemma fold_left_insert_list_to_map (entries : list (Z * bytes))
    (acc : gmap Z bytes) :
  fold_left (fun m e => <[e.1 := e.2]> m) entries acc
  = list_to_map (reverse entries) ∪ acc.
Proof.
  revert acc. induction entries as [|[k v] entries IH]; intros acc.
  - cbn. now rewrite (left_id_L ∅ (∪)).
  - cbn [fold_left]. rewrite IH, reverse_cons, list_to_map_app.
    cbn [list_to_map foldr fst snd].
    rewrite <- (assoc_L (∪)). f_equal.
    rewrite insert_empty, <- insert_union_singleton_l. reflexivity.
Qed.

(** What the loop of [createDigestField] adds to a buffer that decodes
    is decoded into the entries it went through. *)
Lemma createDigestField_loop_decodes (entries : list (Z * bytes)) :
  lib_consistent ->
  forall (buf out : bytes) (m0 : gmap Z bytes),
    createDigestField_loop entries buf = Ok out ->
    UnmarshalDigests (mkTLV digestsTypeValue buf) = Some (Ok m0) ->
    UnmarshalDigests (mkTLV digestsTypeValue out)
    = Some (Ok (fold_left (fun m e => <[e.1 := e.2]> m) entries m0)).
Proof.
  intros [Hinverse Hsizes].
  induction entries as [|[hashAlgo hash] rest IH]; intros buf out m0 Hloop Hbuf.
  - injection Hloop as <-. exact Hbuf.
  - destruct (createDigestField_loop_cons hashAlgo hash rest buf)
      as [([Hsize _] & alg & Halg & Hstep)|[_ Hfail]];
      [|rewrite Hloop in Hfail; discriminate].
    rewrite Hstep in Hloop. cbn [fold_left fst snd].
    apply (IH _ _ _ Hloop).
    apply (UnmarshalDigests_append buf m0 (mkTLV (uint8 alg) hash) hashAlgo).
    + exact Hbuf.
    + unfold valid_TLV. cbn [Value]. now apply (Hsizes hashAlgo).
    + cbn [Type_]. now apply Hinverse.
Qed.

Lemma createDigestField_decodes (range : range_order) (digestMap : gmap Z bytes)
    (tlv : TLV) :
  lib_consistent ->
  range_valid range ->
  createDigestField range digestMap = Ok tlv ->
  UnmarshalDigests tlv = Some (Ok digestMap).
Proof.
  intros Hlib Hrange. unfold createDigestField.
  destruct (createDigestField_loop (range digestMap) []) as [out| |] eqn:Hloop;
    cbn [rbind]; intros [= <-].
  rewrite (createDigestField_loop_decodes _ Hlib [] out ∅ Hloop)
    by reflexivity.
  do 2 f_equal. rewrite fold_left_insert_list_to_map, (right_id_L ∅ (∪)).
  rewrite <- (list_to_map_to_list digestMap) at 2.
  apply list_to_map_proper.
  - rewrite fmap_reverse, reverse_Permutation, (Hrange digestMap).
    apply NoDup_fst_map_to_list.
  - now rewrite reverse_Permutation.
Qed.

(** X16. Under consistent library tables, the DIGESTS field that
    [createDigestField] makes of a digest map is decoded by
    [UnmarshalDigests] into that same map, in whatever order the map was
    iterated. *)
Theorem X16_UnmarshalDigests_createDigestField (range : range_order)
    (digestMap : gmap Z bytes) (tlv : TLV) :
  lib_consistent ->
  range_valid range ->
  createDigestField range digestMap = Ok tlv ->
  UnmarshalDigests tlv = Some (Ok digestMap).
Proof. apply createDigestField_decodes. Qed.

(** ** What [AppendEvent] puts in a record *)

(** The map of the first loop of [AppendEvent]: the digest of every
    requested hash, and what the map held for the others. *)
Lemma AppendEvent_digests_lookup {A} `{Content A} (hashAlgos : list Z)
    (event : A) :
  forall (acc m : gmap Z bytes),
    AppendEvent_digests hashAlgos event acc = Ok m ->
    forall hashAlgo,
      (hashAlgo ∈ hashAlgos ->
       exists digest, GenerateDigest event hashAlgo = Ok digest
                      ∧ m !! hashAlgo = Some digest)
      ∧ (hashAlgo ∉ hashAlgos -> m !! hashAlgo = acc !! hashAlgo).
Proof.
  induction hashAlgos as [|first rest IH]; intros acc m Hloop hashAlgo.
  - injection Hloop as <-. split; [intros Hin; now apply elem_of_nil in Hin|easy].
  - cbn [AppendEvent_digests] in Hloop.
    destruct (GenerateDigest event first) as [digest| |] eqn:Hfirst;
      cbn [rbind] in Hloop; [|discriminate ..].
    destruct (IH _ _ Hloop hashAlgo) as [Hin Hout].
    destruct (decide (hashAlgo ∈ rest)) as [Hrest|Hrest].
    + split; [intros _; now apply Hin|].
      intros Hnot. exfalso. apply Hnot, elem_of_cons. now right.
    + split.
      * intros Hcons. apply elem_of_cons in Hcons as [->|?]; [|contradiction].
        exists digest. split; [assumption|].
        rewrite Hout by assumption. apply lookup_insert_eq.
      * intros Hnot. rewrite Hout by assumption.
        apply lookup_insert_ne. intros ->. apply Hnot, elem_of_cons. now left.
Qed.

(** A successful [AppendEvent], step by step. *)
Lemma AppendEvent_Ok_inv {A} `{Content A} (range : range_order) (c c' : CEL)
    (pcr : Z) (hashAlgos : list Z) (event : A) :
  AppendEvent range c pcr hashAlgos event = (c', Ok tt) ->
  exists digestsMap digestField,
    AppendEvent_digests hashAlgos event ∅ = Ok digestsMap
    ∧ createDigestField range digestsMap = Ok digestField
    ∧ c' = mkCEL (Records c
                    ++ [mkRecord
                          (createRecNumField (Z.of_nat (length (Records c))))
                          (createPCRField (uint8 pcr)) digestField
                          (GetTLV event)]).
Proof.
  unfold AppendEvent. case_decide; [discriminate|].
  destruct (AppendEvent_digests hashAlgos event ∅) as [digestsMap| |];
    [|discriminate ..].
  unfold createCELR.
  destruct (createDigestField range digestsMap) as [digestField| |] eqn:Hfield;
    cbn [rbind]; [|discriminate ..].
  intros [= <-]. exists digestsMap, digestField.
  rewrite createRecNumField_uint64. repeat split. exact Hfield.
Qed.

(** X17. Under consistent library tables, the record that a successful
    [AppendEvent] adds reads back field by field: its DIGESTS field
    decodes to a map that holds, for exactly the requested hashes, the
    digest the event generated (one entry for a hash requested twice),
    its PCR field reads as the low byte of [pcr], and its content is the
    event's TLV. *)
Theorem X17_AppendEvent_record_reads_back {A} `{Content A}
    (range : range_order) (c c' : CEL) (pcr : Z) (hashAlgos : list Z)
    (event : A) :
  lib_consistent ->
  range_valid range ->
  AppendEvent range c pcr hashAlgos event = (c', Ok tt) ->
  exists celr digestsMap,
    Records c' = Records c ++ [celr]
    ∧ UnmarshalDigests (Digests celr) = Some (Ok digestsMap)
    ∧ (forall hashAlgo digest,
         digestsMap !! hashAlgo = Some digest
         <-> hashAlgo ∈ hashAlgos ∧ GenerateDigest event hashAlgo = Ok digest)
    ∧ UnmarshalPCR (PCR celr) = Ok (uint8 pcr)
    ∧ Content_ celr = GetTLV event.
Proof.
  intros Hlib Hrange Happend.
  apply AppendEvent_Ok_inv in Happend
    as (digestsMap & digestField & Hdigests & Hfield & ->).
  eexists _, digestsMap. split; [reflexivity|].
  cbn [Digests PCR Content_]. split; [|split; [|split; reflexivity]].
  - now apply (createDigestField_decodes range).
  - intros hashAlgo digest.
    destruct (AppendEvent_digests_lookup _ _ _ _ Hdigests hashAlgo) as [Hin Hout].
    split.
    + intros Hlookup. destruct (decide (hashAlgo ∈ hashAlgos)) as [Hreq|Hreq].
      * split; [assumption|]. destruct (Hin Hreq) as (digest' & Hgen & Hm).
        congruence.
      * rewrite Hout, lookup_empty in Hlookup by assumption. discriminate.
    + intros [Hreq Hgen]. destruct (Hin Hreq) as (digest' & Hgen' & Hm).
      congruence.
Qed.

Lemma uint8_wraps (v k : Z) : uint8 (v + 256 * k) = uint8 v.
Proof.
  unfold uint8, byte_of_Z. change 255 with (Z.ones 8).
  rewrite !Z.land_ones by lia. change (2 ^ 8) with 256.
  now rewrite Z.mul_comm, Z.mod_add by lia.
Qed.

(** X18. [AppendEvent] does not refuse a register index outside
    0..255: it keeps the low eight bits, so two indices that differ by
    a multiple of 256 give the same call. *)
Theorem X18_AppendEvent_pcr_wraps {A} `{Content A} (range : range_order)
    (c : CEL) (pcr k : Z) (hashAlgos : list Z) (event : A) :
  AppendEvent range c (pcr + 256 * k) hashAlgos event
  = AppendEvent range c pcr hashAlgos event.
Proof. unfold AppendEvent. now rewrite uint8_wraps. Qed.

(** X19. The encoding of a log only grows at its end: after a call of
    [AppendEvent] the log encodes to the bytes it encoded to before,
    followed by the encoding of the new record when the call succeeded
    and by nothing when it did not. *)
Theorem X19_AppendEvent_extends_encoding {A} `{Content A}
    (range : range_order) (c : CEL) (pcr : Z) (hashAlgos : list Z)
    (event : A) :
  exists added,
    log_bytes (fst (AppendEvent range c pcr hashAlgos event))
    = log_bytes c ++ added
    ∧ (snd (AppendEvent range c pcr hashAlgos event) ≠ Ok tt -> added = [])
    ∧ (snd (AppendEvent range c pcr hashAlgos event) = Ok tt ->
       exists celr,
         Records (fst (AppendEvent range c pcr hashAlgos event))
         = Records c ++ [celr]
         ∧ added = record_bytes celr).
Proof.
  destruct (AppendEvent range c pcr hashAlgos event) as [c' r] eqn:Happend.
  cbn [fst snd].
  apply AppendEvent_inv in Happend as [[Hr ->]|(-> & _ & celr & -> & _)].
  - exists []. rewrite app_nil_r. split; [reflexivity|].
    split; [reflexivity|]. intros ->. discriminate.
  - exists (record_bytes celr). rewrite !log_bytes_concat. cbn [Records].
    rewrite map_app, concat_app. cbn [map concat]. rewrite app_nil_r.
    split; [reflexivity|]. split; [contradiction|]. intros _. now exists celr.
Qed.


(** ** Logs written by [AppendEvent] decode *)

Lemma createDigestField_loop_length (bound : Z) (entries : list (Z * bytes)) :
  (forall hashAlgo size, Hash_Size hashAlgo = Ok size -> size <= bound) ->
  forall buf out : bytes,
    createDigestField_loop entries buf = Ok out ->
    Z.of_nat (length out)
    <= Z.of_nat (length buf) + Z.of_nat (length entries) * (5 + bound).
Proof.
  intros Hbound.
  induction entries as [|[hashAlgo hash] rest IH]; intros buf out Hloop.
  - injection Hloop as <-. cbn [length]. lia.
  - destruct (createDigestField_loop_cons hashAlgo hash rest buf)
      as [([Hsize _] & alg & _ & Hstep)|[_ Hfail]];
      [|rewrite Hloop in Hfail; discriminate].
    rewrite Hstep in Hloop. apply IH in Hloop.
    apply Hbound in Hsize.
    rewrite length_app, MarshalBinary_length in Hloop.
    cbn [Value length] in *. nia.
Qed.

Lemma AppendEvent_digests_size {A} `{Content A} (hashAlgos : list Z)
    (event : A) :
  forall (acc m : gmap Z bytes),
    AppendEvent_digests hashAlgos event acc = Ok m ->
    (size m <= size acc + length hashAlgos)%nat.
Proof.
  induction hashAlgos as [|first rest IH]; intros acc m Hloop.
  - injection Hloop as <-. lia.
  - cbn [AppendEvent_digests] in Hloop.
    destruct (GenerateDigest event first) as [digest| |];
      cbn [rbind] in Hloop; [|discriminate ..].
    apply IH in Hloop. cbn [length].
    pose proof (map_size_insert first digest acc) as Hinsert.
    destruct (acc !! first); cbn in Hinsert; lia.
Qed.

(** The record of a successful [AppendEvent] is valid when the event's
    TLV and the digests of the requested hashes fit their length
    fields. *)
Lemma AppendEvent_valid_Record {A} `{Content A} (range : range_order)
    (c c' : CEL) (pcr : Z) (hashAlgos : list Z) (event : A) (bound : Z) :
  range_valid range ->
  (forall hashAlgo size, Hash_Size hashAlgo = Ok size -> size <= bound) ->
  Z.of_nat (length hashAlgos) * (5 + bound) < 2 ^ 32 ->
  valid_TLV (GetTLV event) ->
  AppendEvent range c pcr hashAlgos event = (c', Ok tt) ->
  exists celr, c' = mkCEL (Records c ++ [celr]) ∧ valid_Record celr.
Proof.
  intros Hrange Hbound Hsmall Hevent Happend.
  apply AppendEvent_Ok_inv in Happend
    as (digestsMap & digestField & Hdigests & Hfield & ->).
  eexists. split; [reflexivity|].
  unfold valid_Record, valid_TLV. cbn [RECNUM PCR Digests Content_ Type_ Value].
  pose proof (createDigestField_Type _ _ _ Hfield) as Htype.
  repeat split; try assumption; try (cbn; lia).
  unfold createDigestField in Hfield.
  destruct (createDigestField_loop (range digestsMap) []) as [out| |] eqn:Hloop;
    cbn [rbind] in Hfield; try discriminate.
  injection Hfield as <-. cbn [Value].
  apply (createDigestField_loop_length bound _ Hbound) in Hloop.
  apply AppendEvent_digests_size in Hdigests.
  rewrite map_size_empty in Hdigests.
  rewrite (Hrange digestsMap), length_map_to_list in Hloop.
  cbn [length] in Hloop.
  assert (0 <= 5 + bound \/ 5 + bound < 0) as [Hpos|Hneg] by lia; nia.
Qed.

(** X20. What [AppendEvent] writes, [DecodeToCEL] reads: when a log of
    valid records gets one more record by a successful [AppendEvent], for
    an event whose TLV fits the length field and so few hashes that their
    digests do, its encoding decodes to exactly that log. *)
Theorem X20_AppendEvent_then_DecodeToCEL {A} `{Content A}
    (range : range_order) (c c' : CEL) (pcr : Z) (hashAlgos : list Z)
    (event : A) (bound : Z) :
  range_valid range ->
  (forall hashAlgo size, Hash_Size hashAlgo = Ok size -> size <= bound) ->
  Z.of_nat (length hashAlgos) * (5 + bound) < 2 ^ 32 ->
  valid_TLV (GetTLV event) ->
  Forall valid_Record (Records c) ->
  AppendEvent range c pcr hashAlgos event = (c', Ok tt) ->
  Forall valid_Record (Records c')
  ∧ DecodeToCEL (log_bytes c') = Some (Ok c', []).
Proof.
  intros Hrange Hbound Hsmall Hevent Hvalid Happend.
  destruct (AppendEvent_valid_Record _ _ _ _ _ _ _ Hrange Hbound Hsmall Hevent
              Happend) as (celr & -> & Hcelr).
  assert (Forall valid_Record (Records c ++ [celr])) as Hall.
  { apply Forall_app. split; [assumption|]. constructor; [assumption|constructor]. }
  split; [exact Hall|].
  unfold DecodeToCEL. rewrite log_bytes_concat. cbn [Records].
  now rewrite DecodeToCEL_loop_log by (assumption || lia).
Qed.


(** ** When [AppendEvent] succeeds *)

Lemma AppendEvent_digests_Ok {A} `{Content A} (hashAlgos : list Z) (event : A) :
  (forall hashAlgo, hashAlgo ∈ hashAlgos ->
                    is_Ok (GenerateDigest event hashAlgo) = true) ->
  forall acc, exists m, AppendEvent_digests hashAlgos event acc = Ok m.
Proof.
  induction hashAlgos as [|first rest IH]; intros Hall acc.
  - now exists acc.
  - cbn [AppendEvent_digests].
    destruct (GenerateDigest event first) as [digest| |] eqn:Hfirst;
      cbn [rbind].
    + apply IH. intros hashAlgo Hin. apply Hall, elem_of_cons. now right.
    + specialize (Hall first ltac:(apply elem_of_cons; now left)).
      rewrite Hfirst in Hall. discriminate.
    + specialize (Hall first ltac:(apply elem_of_cons; now left)).
      rewrite Hfirst in Hall. discriminate.
Qed.

(** X22. [AppendEvent] succeeds exactly when at least one hash is
    requested and the event generates, for every requested hash, a digest
    of that hash's size, the hash having a TPM algorithm. *)
Theorem X22_AppendEvent_succeeds_iff {A} `{Content A} (range : range_order)
    (c : CEL) (pcr : Z) (hashAlgos : list Z) (event : A) :
  range_valid range ->
  snd (AppendEvent range c pcr hashAlgos event) = Ok tt
  <-> hashAlgos ≠ []
      ∧ forall hashAlgo, hashAlgo ∈ hashAlgos ->
          exists digest, GenerateDigest event hashAlgo = Ok digest
                         ∧ good_digest hashAlgo digest.
Proof.
  intros Hrange. split.
  - destruct (AppendEvent range c pcr hashAlgos event) as [c' r] eqn:Happend.
    cbn [snd]. intros ->. split.
    + now apply AppendEvent_inv in Happend as [[[=] _]|(_ & Hne & _)].
    + apply AppendEvent_Ok_inv in Happend
        as (digestsMap & digestField & Hdigests & Hfield & _).
      assert (map_Forall good_digest digestsMap) as Hgood.
      { apply (createDigestField_Ok range); [assumption|]. now rewrite Hfield. }
      intros hashAlgo Hin.
      destruct (AppendEvent_digests_lookup _ _ _ _ Hdigests hashAlgo)
        as [Hrequested _].
      destruct (Hrequested Hin) as (digest & Hgen & Hlookup).
      exists digest. split; [assumption|]. now apply (Hgood _ _ Hlookup).
  - intros [Hne Hall].
    destruct (AppendEvent_digests_Ok hashAlgos event) with (acc := (∅ : gmap Z bytes))
      as [digestsMap Hdigests].
    { intros hashAlgo Hin. destruct (Hall _ Hin) as (digest & -> & _). reflexivity. }
    assert (map_Forall good_digest digestsMap) as Hgood.
    { intros hashAlgo digest Hlookup.
      destruct (AppendEvent_digests_lookup _ _ _ _ Hdigests hashAlgo)
        as [Hrequested Hother].
      destruct (decide (hashAlgo ∈ hashAlgos)) as [Hin|Hout].
      - destruct (Hrequested Hin) as (digest' & Hgen & Hlookup').
        destruct (Hall _ Hin) as (digest'' & Hgen' & Hgood). congruence.
      - rewrite Hother, lookup_empty in Hlookup by assumption. discriminate. }
    apply (createDigestField_Ok range) in Hgood; [|assumption].
    apply is_Ok_true in Hgood as [digestField Hfield].
    unfold AppendEvent. rewrite decide_False by (now destruct hashAlgos).
    rewrite Hdigests. unfold createCELR. now rewrite Hfield.
Qed.

End DigestProperties.

(** ** The library's tables are consistent *)

Lemma GoLib_sizes_bounded (hashAlgo size : Z) :
  Hash_Size hashAlgo = Ok size -> size <= 64.
Proof.
  cbn [Hash_Size GoLib.lib]. unfold GoLib.Size, GoLib.maxHash.
  case_decide as Hrange; [|discriminate].
  assert (exists n : nat, hashAlgo = Z.of_nat n ∧ (n < 20)%nat) as (n & -> & Hn).
  { exists (Z.to_nat hashAlgo). lia. }
  rewrite Nat2Z.id.
  do 20 (destruct n as [|n]; [cbn; intros [= <-]; lia|]). lia.
Qed.

Lemma GoLib_consistent : lib_consistent.
Proof.
  split.
  - apply GoLib_Algorithm_Hash_inverts.
  - intros hashAlgo size Hsize. apply GoLib_sizes_bounded in Hsize. lia.
Qed.

(** ** The further properties on concrete inputs *)

Lemma X13_UnmarshalDigests_last_entry_witness :
  exists m',
    UnmarshalDigests
      (mkTLV digestsTypeValue
         (MarshalBinary (mkTLV x0b [xbb]) ++ MarshalBinary (mkTLV x0b [xaa])))
    = Some (Ok m')
    ∧ m' !! GoLib.SHA256 = Some [xaa]
    ∧ forall other, other ≠ GoLib.SHA256 ->
        m' !! other = ({[GoLib.SHA256 := [xbb]]} : gmap Z bytes) !! other.
Proof.
  apply (X13_UnmarshalDigests_last_entry (MarshalBinary (mkTLV x0b [xbb]))
           {[GoLib.SHA256 := [xbb]]} (mkTLV x0b [xaa]) GoLib.SHA256).
  - reflexivity.
  - unfold valid_TLV. cbn. lia.
  - reflexivity.
Defined.

Lemma X14_UnmarshalDigests_unknown_algorithm_witness :
  UnmarshalDigests
    (mkTLV digestsTypeValue
       (MarshalBinary (mkTLV x0b [xbb]) ++ MarshalBinary (mkTLV x0a [xaa])
          ++ [x01; x02]))
  = Some (Err GoLib.ErrHashNotSupported).
Proof.
  apply (X14_UnmarshalDigests_unknown_algorithm (MarshalBinary (mkTLV x0b [xbb]))
           [x01; x02] {[GoLib.SHA256 := [xbb]]} (mkTLV x0a [xaa])).
  - reflexivity.
  - unfold valid_TLV. cbn. lia.
  - reflexivity.
Defined.

Lemma X15_UnmarshalDigests_truncated_witness :
  UnmarshalDigests
    (mkTLV digestsTypeValue
       (MarshalBinary (mkTLV x0b [xbb]) ++ [x04; x00; x00; x00; x14; xaa]))
  = Some (Err ErrBufferEnds).
Proof.
  apply (X15_UnmarshalDigests_truncated (MarshalBinary (mkTLV x0b [xbb]))
           [x04; x00; x00; x00; x14; xaa] {[GoLib.SHA256 := [xbb]]}).
  - reflexivity.
  - discriminate.
  - intros [_ Hfit]. vm_compute in Hfit. now apply Hfit.
Defined.

Lemma X16_UnmarshalDigests_createDigestField_witness :
  UnmarshalDigests sample_digest_field = Some (Ok sample_digests).
Proof.
  apply (X16_UnmarshalDigests_createDigestField GoLib.reversed sample_digests
           sample_digest_field).
  - apply GoLib_consistent.
  - apply range_valid_reversed.
  - reflexivity.
Defined.

Lemma X17_AppendEvent_record_reads_back_witness :
  exists celr digestsMap,
    Records sample_log_2 = Records sample_log_1 ++ [celr]
    ∧ UnmarshalDigests (Digests celr) = Some (Ok digestsMap)
    ∧ (forall hashAlgo digest,
         digestsMap !! hashAlgo = Some digest
         <-> hashAlgo ∈ [GoLib.SHA256; GoLib.SHA1]
             ∧ GenerateDigest sample_event hashAlgo = Ok digest)
    ∧ UnmarshalPCR (PCR celr) = Ok (uint8 23)
    ∧ Content_ celr = GetTLV sample_event.
Proof.
  apply (X17_AppendEvent_record_reads_back GoLib.reversed sample_log_1
           sample_log_2 23 [GoLib.SHA256; GoLib.SHA1] sample_event).
  - apply GoLib_consistent.
  - apply range_valid_reversed.
  - reflexivity.
Defined.

Lemma valid_sample_log_1 : Forall valid_Record (Records sample_log_1).
Proof.
  assert (DecodeToCEL (log_bytes sample_log_1) = Some (Ok sample_log_1, []))
    as Hdecode by reflexivity.
  unfold DecodeToCEL in Hdecode.
  apply DecodeToCEL_loop_Ok_inv in Hdecode as (_ & new & Hrecords & _ & Hvalid).
  cbn [app] in Hrecords. now rewrite Hrecords.
Qed.

Lemma X20_AppendEvent_then_DecodeToCEL_witness :
  Forall valid_Record (Records sample_log_2)
  ∧ DecodeToCEL (log_bytes sample_log_2) = Some (Ok sample_log_2, []).
Proof.
  apply (X20_AppendEvent_then_DecodeToCEL GoLib.reversed sample_log_1
           sample_log_2 23 [GoLib.SHA256; GoLib.SHA1] sample_event 64).
  - apply range_valid_reversed.
  - apply GoLib_sizes_bounded.
  - cbn. lia.
  - unfold valid_TLV. cbn. lia.
  - apply valid_sample_log_1.
  - reflexivity.
Defined.

Lemma X22_AppendEvent_succeeds_iff_witness :
  snd (AppendEvent GoLib.enumerated sample_log_1 7 [GoLib.SHA1; 2] sample_event)
  = Ok tt
  <-> [GoLib.SHA1; 2] ≠ []
      ∧ forall hashAlgo, hashAlgo ∈ [GoLib.SHA1; 2] ->
          exists digest, GenerateDigest sample_event hashAlgo = Ok digest
                         ∧ good_digest hashAlgo digest.
Proof.
  apply (X22_AppendEvent_succeeds_iff GoLib.enumerated sample_log_1 7
           [GoLib.SHA1; 2] sample_event).
  apply range_valid_enumerated.
Defined.

(** ** Chains of extensions *)

Section ChainComposition.
Variable Sum256 : bytes -> bytes.
Variable growslice : nat -> nat -> nat.


End ChainComposition.
